(** * ngx_readv_chain.c: vectored read into a buffer chain

    A shallow embedding of [src/os/unix/ngx_readv_chain.c]: the
    [kos_readv] shim (a vectored read emulated with one [read] into a
    zeroed staging buffer), the loop that coalesces the chain's free
    regions into [struct iovec] entries, and [ngx_readv_chain] with its
    readiness bookkeeping for kqueue, FIONREAD and epoll.

    Conventions.
    - Pointers are addresses in [Z]; [NULL] is [0].
    - [size_t] arithmetic wraps modulo [SIZE_MAX + 1]; [ssize_t], [off_t]
      and pointer differences are mathematical integers (signed overflow
      is undefined in C and is not modelled).
    - [rev->available] is an [int], 32 bits wide: a value stored into it
      is converted to [int], wrapping modulo [2 ^ 32].
    - The headers are not part of the file: the macros it uses, the
      preprocessor switches and [ngx_connection_error] are fields of a
      [platform] record, so every statement holds for any values of them.
    - System calls are answered from a script carried by the [world].
    - Logging is not modelled. *)

From Stdlib Require Import ZArith List Bool Lia.
Import ListNotations.
Local Open Scope Z_scope.

(** ** Data *)

Definition NULL : Z := 0.

(** The two markers of [ngx_buf_t] the function reads: the free region of a
    buffer is [[last, end)]. *)
Record ngx_buf_t := mkBuf { buf_last : Z; buf_end : Z }.

(** [ngx_chain_t]: a singly linked list of buffers, [NULL] being [[]]. *)
Definition ngx_chain_t := list ngx_buf_t.

Record iovec := mkIov { iov_base : Z; iov_len : Z }.

(** The fields of [ngx_event_t] used through [rev]; [available] holds an
    [int]. *)
Record ngx_event_t := mkEvent {
  ready : bool;
  eof : bool;
  error : bool;
  pending_eof : bool;
  available : Z;
  kq_errno : Z
}.

(** [ngx_connection_t]: the read event [c->read], the descriptor and the
    [log_error] level that [ngx_connection_error] consults. *)
Record ngx_connection_t := mkConn {
  read : ngx_event_t;
  fd : Z;
  log_error : Z
}.

(** What the headers and the build supply. *)
Record platform := mkPlatform {
  NGX_HAVE_KQUEUE : bool;
  NGX_HAVE_EPOLLRDHUP : bool;
  NGX_HAVE_FIONREAD : bool;
  __KOS__ : bool;
  NGX_IOVS_PREALLOCATE : Z;
  SIZE_MAX : Z;
  NGX_USE_KQUEUE_EVENT : Z;
  NGX_USE_EPOLL_EVENT : Z;
  NGX_USE_GREEDY_EVENT : Z;
  NGX_ERROR : Z;
  NGX_AGAIN : Z;
  NGX_EAGAIN : Z;
  NGX_EINTR : Z;
  EINVAL : Z;
  ngx_connection_error : ngx_connection_t -> Z -> Z
}.

(** The globals of the event module. *)
Record ngx_globals := mkGlobals {
  ngx_event_flags : Z;
  ngx_use_epoll_rdhup : bool
}.

(** One answer of [read(2)]/[readv(2)]: the bytes the kernel has for the
    caller (it hands over at most as many as were asked for; none means
    the peer has shut down), or a failure with its [errno]. *)
Inductive sys_read :=
| ReadOk (bytes : list Z)
| ReadErr (e : Z).

(** One answer of [ngx_socket_nread]: the pending byte count it stores
    through its [int] pointer, or a failure with its [errno]. *)
Inductive sys_nread :=
| NreadOk (pending : Z)
| NreadErr (e : Z).

Definition memory := Z -> Z.

Record world := mkWorld {
  mem : memory;
  errno : Z;
  reads : list sys_read;
  nreads : list sys_nread
}.

Definition set_errno (e : Z) (w : world) : world :=
  mkWorld (mem w) e (reads w) (nreads w).

Definition set_ready (b : bool) (rev : ngx_event_t) : ngx_event_t :=
  mkEvent b (eof rev) (error rev) (pending_eof rev) (available rev) (kq_errno rev).

Definition set_eof (b : bool) (rev : ngx_event_t) : ngx_event_t :=
  mkEvent (ready rev) b (error rev) (pending_eof rev) (available rev) (kq_errno rev).

Definition set_error (b : bool) (rev : ngx_event_t) : ngx_event_t :=
  mkEvent (ready rev) (eof rev) b (pending_eof rev) (available rev) (kq_errno rev).

Definition set_available (a : Z) (rev : ngx_event_t) : ngx_event_t :=
  mkEvent (ready rev) (eof rev) (error rev) (pending_eof rev) a (kq_errno rev).

Definition set_read (rev : ngx_event_t) (c : ngx_connection_t) : ngx_connection_t :=
  mkConn rev (fd c) (log_error c).

(** ** Integer conversions *)

(** The range of [int]. *)
Definition INT_MAX : Z := 2 ^ 31 - 1.

Definition INT_MIN : Z := - 2 ^ 31.

(** Conversion to [int], as on assignment to [rev->available]. *)
Definition to_int (x : Z) : Z := (x + 2 ^ 31) mod 2 ^ 32 - 2 ^ 31.

Arguments to_int x : simpl never.

Section Code.

Variable P : platform.
Variable G : ngx_globals.

(** Conversion to [size_t]. *)
Definition to_size (x : Z) : Z := x mod (SIZE_MAX P + 1).

(** Conversion to [ssize_t]. *)
Definition to_ssize (x : Z) : Z :=
  let y := x mod (SIZE_MAX P + 1) in
  if y <=? SIZE_MAX P / 2 then y else y - (SIZE_MAX P + 1).

(** [ngx_event_flags & mask] as a condition. *)
Definition flag (mask : Z) : bool :=
  negb (Z.land (ngx_event_flags G) mask =? 0).

(** ** Memory *)

(** [memcpy(dest, buffer + off, n)] from a staging buffer held as a list. *)
Definition memcpy (dest : Z) (buffer : list Z) (off n : Z) (m : memory) : memory :=
  fun a =>
    if (dest <=? a) && (a <? dest + n)
    then nth (Z.to_nat (off + (a - dest))) buffer 0
    else m a.

(** ** kos_readv *)

(** The first loop: [None] when an entry has a negative length, else the
    final [totalLength]. *)
Fixpoint kos_total (iov : list iovec) (totalLength : Z) : option Z :=
  match iov with
  | [] => Some totalLength
  | v :: rest =>
      if 0 >? iov_len v then None
      else kos_total rest (to_ssize (iov_len v + to_size totalLength))
  end.

(** The second loop: one [memcpy] per entry out of the staging buffer. *)
Fixpoint kos_copy (iov : list iovec) (buffer : list Z)
         (currentMemoryLocation : Z) (m : memory) : memory :=
  match iov with
  | [] => m
  | v :: rest =>
      kos_copy rest buffer (to_size (currentMemoryLocation + iov_len v))
               (memcpy (iov_base v) buffer currentMemoryLocation (iov_len v) m)
  end.

(** [malloc] and [memset] followed by [read(fd, buffer, count)] answered
    with [bytes]: the staging buffer afterwards. *)
Definition staging (count : Z) (bytes : list Z) : list Z :=
  let got := firstn (Z.to_nat count) bytes in
  got ++ repeat 0 (Z.to_nat count - length got)%nat.

(** [kos_readv(fd, iov, iovCount, log)]; [None] when the script has no
    answer left for the [read] it issues. *)
Definition kos_readv (iov : list iovec) (iovCount : Z) (w : world)
  : option (Z * world) :=
  if 0 >=? iovCount then Some (-1, set_errno (EINVAL P) w)
  else
    match kos_total iov 0 with
    | None => Some (-1, set_errno (EINVAL P) w)
    | Some totalLength =>
        if to_size totalLength >? SIZE_MAX P then Some (-1, set_errno (EINVAL P) w)
        else if totalLength =? 0 then Some (0, w)
        else
          match reads w with
          | [] => None
          | ReadErr e :: tr => Some (-1, mkWorld (mem w) e tr (nreads w))
          | ReadOk bytes :: tr =>
              let count := to_size totalLength in
              let buffer := staging count bytes in
              let readBytes := Z.of_nat (length (firstn (Z.to_nat count) bytes)) in
              Some (readBytes,
                    mkWorld (kos_copy iov buffer 0 (mem w)) (errno w) tr (nreads w))
          end
    end.

(** ** readv *)

(** Stores [data] at [base], [base + 1], ... *)
Definition store_bytes (base : Z) (data : list Z) (m : memory) : memory :=
  fun a =>
    if (base <=? a) && (a <? base + Z.of_nat (length data))
    then nth (Z.to_nat (a - base)) data 0
    else m a.

(** Fills the regions in order with [data], stopping when it runs out. *)
Fixpoint scatter (iov : list iovec) (data : list Z) (m : memory) : memory :=
  match iov with
  | [] => m
  | v :: rest =>
      let k := Z.to_nat (iov_len v) in
      scatter rest (skipn k data) (store_bytes (iov_base v) (firstn k data) m)
  end.

Definition total_len (iov : list iovec) : Z :=
  fold_right (fun v acc => iov_len v + acc) 0 iov.

(** Modelled from the spec: the platform read primitive [readv], which the
    file only calls. It takes a socket handle and an ordered list of
    (address, length) regions and returns the number of bytes actually
    placed into the supplied regions, in chain order, starting from the
    first entry; zero signals orderly shutdown; a negative value signals an
    error with an out-of-band error code. *)
Definition readv (iov : list iovec) (iovCount : Z) (w : world)
  : option (Z * world) :=
  match reads w with
  | [] => None
  | ReadErr e :: tr => Some (-1, mkWorld (mem w) e tr (nreads w))
  | ReadOk bytes :: tr =>
      let data := firstn (Z.to_nat (total_len iov)) bytes in
      Some (Z.of_nat (length data),
            mkWorld (scatter iov data (mem w)) (errno w) tr (nreads w))
  end.

(** ** The coalescing loop *)

(** The locals of the loop: the array [vec] (its [nelts] is the length of
    the list, and [iov] points at its last element, or is [NULL] while the
    list is empty), [size] and [prev]. *)
Record co_state := mkCo {
  co_vec : list iovec;
  co_size : Z;
  co_prev : Z
}.

Inductive co_result :=
| CoDone (st : co_state) (rest : ngx_chain_t)
| CoError
| CoFault.

(** [iov->iov_len += n] on the last element; [None] when [iov] is [NULL]. *)
Fixpoint bump_last (n : Z) (vec : list iovec) : option (list iovec) :=
  match vec with
  | [] => None
  | [e] => Some [mkIov (iov_base e) (to_size (iov_len e + n))]
  | e :: tl =>
      match bump_last n tl with
      | Some tl' => Some (e :: tl')
      | None => None
      end
  end.

(** Modelled from the spec: [ngx_array_push], defined in the core array
    module. The Entry Vector is a fixed-capacity ordered sequence; a push
    below capacity yields the next free slot. A push at capacity would have
    to allocate from the pool, which is not modelled and yields [NULL]. *)
Definition ngx_array_push (vec : list iovec) (nalloc : Z) (e : iovec)
  : option (list iovec) :=
  if Z.of_nat (length vec) <? nalloc then Some (vec ++ [e]) else None.

(** The [while (chain)] loop; [rest] in [CoDone] is [chain] at loop exit. *)
Fixpoint coalesce_loop (chain : ngx_chain_t) (limit : Z) (st : co_state)
  : co_result :=
  match chain with
  | [] => CoDone st []
  | cl :: next =>
      let n := buf_end cl - buf_last cl in
      if negb (limit =? 0) && (co_size st >=? limit) then CoDone st chain
      else
        let n := if negb (limit =? 0) && (co_size st + n >? limit)
                 then limit - co_size st else n in
        if co_prev st =? buf_last cl then
          match bump_last n (co_vec st) with
          | None => CoFault
          | Some vec' =>
              coalesce_loop next limit (mkCo vec' (co_size st + n) (buf_end cl))
          end
        else if Z.of_nat (length (co_vec st)) =? NGX_IOVS_PREALLOCATE P
        then CoDone st chain
        else
          match ngx_array_push (co_vec st) (NGX_IOVS_PREALLOCATE P)
                               (mkIov (buf_last cl) (to_size n)) with
          | None => CoError
          | Some vec' =>
              coalesce_loop next limit (mkCo vec' (co_size st + n) (buf_end cl))
          end
  end.

Definition coalesce (chain : ngx_chain_t) (limit : Z) : co_result :=
  coalesce_loop chain limit (mkCo [] 0 NULL).

(** ** ngx_readv_chain *)

(** What an invocation leaves behind: the return value, the connection, the
    chain as it stands in memory, and the world. *)
Record result := mkResult {
  ret : Z;
  conn : ngx_connection_t;
  chain_after : ngx_chain_t;
  world_after : world
}.

Inductive exec :=
| Ret (r : result)
| Fault      (* a NULL pointer is dereferenced *)
| Stuck.     (* the script of system-call answers is exhausted *)

(** The kqueue block before the read; [None] means fall through. *)
Definition kqueue_gate (c : ngx_connection_t) (w : world)
  : option (Z * ngx_connection_t * world) :=
  let rev := read c in
  if NGX_HAVE_KQUEUE P && flag (NGX_USE_KQUEUE_EVENT P) then
    if available rev =? 0 then
      if pending_eof rev then
        let rev := set_eof true (set_ready false rev) in
        if negb (kq_errno rev =? 0) then
          Some (NGX_ERROR P, set_read (set_error true rev) c,
                set_errno (kq_errno rev) w)
        else Some (0, set_read rev c, w)
      else Some (NGX_AGAIN P, c, w)
    else None
  else None.

(** The epoll block before the read. *)
Definition epoll_gate (c : ngx_connection_t) : option Z :=
  let rev := read c in
  if NGX_HAVE_EPOLLRDHUP P && flag (NGX_USE_EPOLL_EVENT P) then
    if (available rev =? 0) && negb (pending_eof rev)
    then Some (NGX_AGAIN P) else None
  else None.

(** Both blocks in order. *)
Definition pre_read_gate (c : ngx_connection_t) (w : world)
  : option (Z * ngx_connection_t * world) :=
  match kqueue_gate c w with
  | Some r => Some r
  | None =>
      match epoll_gate c with
      | Some n => Some (n, c, w)
      | None => None
      end
  end.

(** The call inside the [do] loop. *)
Definition vectored_read (vec : list iovec) (w : world) : option (Z * world) :=
  if __KOS__ P then kos_readv vec (Z.of_nat (length vec)) w
  else readv vec (Z.of_nat (length vec)) w.

(** The statements after the loop: [rev->ready = 0], the error flag when
    [n == NGX_ERROR], [return n]. *)
Definition after_loop (n : Z) (c : ngx_connection_t) (chain : ngx_chain_t)
           (w : world) : result :=
  let rev := set_ready false (read c) in
  let rev := if n =? NGX_ERROR P then set_error true rev else rev in
  mkResult n (set_read rev c) chain w.

(** The branch [n == 0]. *)
Definition on_eof (c : ngx_connection_t) (chain : ngx_chain_t) (w : world)
  : result :=
  let rev := set_eof true (set_ready false (read c)) in
  let rev := if NGX_HAVE_KQUEUE P && flag (NGX_USE_KQUEUE_EVENT P)
             then set_available 0 rev else rev in
  mkResult 0 (set_read rev c) chain w.

(** The epoll block and the generic tail of the branch [n > 0]. *)
Definition on_data_tail (n size : Z) (c : ngx_connection_t)
           (chain : ngx_chain_t) (w : world) : result :=
  let rev := read c in
  if NGX_HAVE_EPOLLRDHUP P && (flag (NGX_USE_EPOLL_EVENT P)
                               && ngx_use_epoll_rdhup G) then
    if n <? size then
      let rev := if negb (pending_eof rev) then set_ready false rev else rev in
      mkResult n (set_read (set_available 0 rev) c) chain w
    else mkResult n c chain w
  else if (n <? size) && negb (flag (NGX_USE_GREEDY_EVENT P)) then
    mkResult n (set_read (set_ready false rev) c) chain w
  else mkResult n c chain w.

(** The branch [n > 0]. *)
Definition on_data (n size : Z) (c : ngx_connection_t) (chain : ngx_chain_t)
           (w : world) : exec :=
  let rev := read c in
  if NGX_HAVE_KQUEUE P && flag (NGX_USE_KQUEUE_EVENT P) then
    let rev := set_available (to_int (available rev - n)) rev in
    let rev :=
      if available rev <=? 0 then
        set_available 0
          (if negb (pending_eof rev) then set_ready false rev else rev)
      else rev in
    Ret (mkResult n (set_read rev c) chain w)
  else if NGX_HAVE_FIONREAD P then
    if available rev >=? 0 then
      let rev := set_available (to_int (available rev - n)) rev in
      let rev := if available rev <? 0
                 then set_ready false (set_available 0 rev) else rev in
      Ret (on_data_tail n size (set_read rev c) chain w)
    else if n =? size then
      match nreads w with
      | [] => Stuck
      | NreadErr e :: tn =>
          let w := mkWorld (mem w) e (reads w) tn in
          Ret (after_loop (ngx_connection_error P c (errno w)) c chain w)
      | NreadOk pending :: tn =>
          let w := mkWorld (mem w) (errno w) (reads w) tn in
          Ret (on_data_tail n size (set_read (set_available pending rev) c) chain w)
      end
    else Ret (on_data_tail n size c chain w)
  else Ret (on_data_tail n size c chain w).

(** The [do ... while (err == NGX_EINTR)] loop and what follows it. Each
    turn spends one unit of [fuel]. *)
Fixpoint read_loop (fuel : nat) (vec : list iovec) (size : Z)
         (c : ngx_connection_t) (chain : ngx_chain_t) (w : world) : exec :=
  match fuel with
  | O => Stuck
  | S fuel' =>
      match vectored_read vec w with
      | None => Stuck
      | Some (n, w) =>
          if n =? 0 then Ret (on_eof c chain w)
          else if n >? 0 then on_data n size c chain w
          else
            let err := errno w in
            if (err =? NGX_EAGAIN P) || (err =? NGX_EINTR P) then
              if err =? NGX_EINTR P
              then read_loop fuel' vec size c chain w
              else Ret (after_loop (NGX_AGAIN P) c chain w)
            else Ret (after_loop (ngx_connection_error P c err) c chain w)
      end
  end.

(** [ngx_readv_chain(c, chain, limit)]. A retry follows only a failed call,
    so one turn more than there are answers to [read] is all the loop can
    take while the calls reach the kernel. *)
Definition ngx_readv_chain (c : ngx_connection_t) (chain : ngx_chain_t)
           (limit : Z) (w : world) : exec :=
  match pre_read_gate c w with
  | Some (n, c', w') => Ret (mkResult n c' chain w')
  | None =>
      match coalesce chain limit with
      | CoFault => Fault
      | CoError => Ret (mkResult (NGX_ERROR P) c chain w)
      | CoDone st _ =>
          read_loop (S (length (reads w))) (co_vec st) (co_size st) c chain w
      end
  end.

(** ** Conditions and invariants used in the statements *)

(** The condition of the kqueue blocks. *)
Definition kqueue_active : bool :=
  NGX_HAVE_KQUEUE P && flag (NGX_USE_KQUEUE_EVENT P).

(** The condition of the epoll block after the read. *)
Definition epoll_rdhup_active : bool :=
  NGX_HAVE_EPOLLRDHUP P
  && (flag (NGX_USE_EPOLL_EVENT P) && ngx_use_epoll_rdhup G).

(** What the loop maintains under a limit, on chains of valid buffers: the
    size stays within the limit and is the sum of the entry lengths, which
    are not negative; the array stays within its capacity; and [prev] is
    [NULL] while the array is empty. *)
Definition co_inv (limit : Z) (st : co_state) : Prop :=
  0 <= co_size st <= limit
  /\ total_len (co_vec st) = co_size st
  /\ Forall (fun v => 0 <= iov_len v) (co_vec st)
  /\ Z.of_nat (length (co_vec st)) <= NGX_IOVS_PREALLOCATE P
  /\ (co_vec st = [] -> co_prev st = NULL).

End Code.

(** ** Chains and buffers the caller may pass *)

(** The free region of a buffer and of a chain. *)
Definition free_space (b : ngx_buf_t) : Z := buf_end b - buf_last b.

Definition total_free (chain : ngx_chain_t) : Z :=
  fold_right (fun b acc => free_space b + acc) 0 chain.

(** A buffer the caller may pass: a valid address with [last] not beyond
    [end]. *)
Definition buf_ok (b : ngx_buf_t) : Prop :=
  buf_last b <> NULL /\ buf_last b <= buf_end b.

(** A valid buffer with no free space. *)
Definition buf_full (b : ngx_buf_t) : Prop :=
  buf_last b <> NULL /\ buf_last b = buf_end b.

(** ** Concrete platforms and inputs used by the examples *)

(** A 64-bit build with the values the nginx headers give the macros. *)
Definition unix_platform (kqueue epollrdhup fionread kos : bool) : platform :=
  mkPlatform kqueue epollrdhup fionread kos
             64 (2 ^ 64 - 1)
             8 64 32
             (-1) (-2)
             11 4 22
             (fun _ _ => -1).

Definition zero_memory : memory := fun _ => 0.

Definition fresh_event (avail : Z) (peof : bool) (kqerr : Z) : ngx_event_t :=
  mkEvent true false false peof avail kqerr.

Definition fresh_conn (avail : Z) (peof : bool) (kqerr : Z) : ngx_connection_t :=
  mkConn (fresh_event avail peof kqerr) 3 0.

Definition script (rs : list sys_read) : world := mkWorld zero_memory 0 rs [].

(** The same build with an [ngx_connection_error] that reports errno 104
    as 0 on a connection whose [log_error] level is 3, and every other
    error as NGX_ERROR. *)
Definition lenient_platform : platform :=
  mkPlatform false false false false
             64 (2 ^ 64 - 1)
             8 64 32
             (-1) (-2)
             11 4 22
             (fun c err =>
                if (err =? 104) && (log_error c =? 3) then 0 else -1).

(** ** What the spec expects of the chain after a read *)

(** The chain the spec describes after [n] bytes were delivered: walking
    the chain in order, each buffer's [last] advances by what it received,
    its whole free region while bytes remain and the remainder in the
    partially filled one. *)
Fixpoint spec_advance (n : Z) (chain : ngx_chain_t) : ngx_chain_t :=
  match chain with
  | [] => []
  | b :: rest =>
      let k := Z.max 0 (Z.min n (buf_end b - buf_last b)) in
      mkBuf (buf_last b + k) (buf_end b) :: spec_advance (n - k) rest
  end.

(** ** The claims the code does not meet, as the spec words them *)

(** C7 as the spec words it: with epoll in use and no pending EOF the call
    returns NGX_AGAIN without a read, whatever the available hint. *)
Definition epoll_gate_unconditional : Prop :=
  forall P G c chain limit w,
    NGX_HAVE_EPOLLRDHUP P = true ->
    flag G (NGX_USE_EPOLL_EVENT P) = true ->
    pending_eof (read c) = false ->
    exists r,
      ngx_readv_chain P G c chain limit w = Ret r
      /\ ret r = NGX_AGAIN P
      /\ reads (world_after r) = reads w.

(** C5 as the spec words it, for its last case: a failed read whose error
    is neither NGX_EAGAIN nor NGX_EINTR yields NGX_ERROR with the error
    flag set and ready cleared. *)
Definition other_errors_always_fatal : Prop :=
  forall P G c chain limit w st rest err tr,
    pre_read_gate P G c w = None ->
    coalesce P chain limit = CoDone st rest ->
    reads w = ReadErr err :: tr ->
    vectored_read P (co_vec st) w
    = Some (-1, mkWorld (mem w) err tr (nreads w)) ->
    err <> NGX_EAGAIN P ->
    err <> NGX_EINTR P ->
    exists r,
      ngx_readv_chain P G c chain limit w = Ret r
      /\ ret r = NGX_ERROR P
      /\ error (read (conn r)) = true
      /\ ready (read (conn r)) = false.

(** C4 as the spec words it: under every mechanism a hint h that was not
    negative becomes h - n, or zero when h < n. *)
Definition hint_always_decremented : Prop :=
  forall P G c chain limit w st rest n w1,
    pre_read_gate P G c w = None ->
    coalesce P chain limit = CoDone st rest ->
    vectored_read P (co_vec st) w = Some (n, w1) ->
    0 < n ->
    0 <= available (read c) ->
    exists r,
      ngx_readv_chain P G c chain limit w = Ret r
      /\ (n <= available (read c) ->
          available (read (conn r)) = available (read c) - n)
      /\ (available (read c) < n -> available (read (conn r)) = 0).

(** C6 as the spec words it: in a FIONREAD build a result of zero or
    below after the subtraction clamps the hint and clears ready. *)
Definition fionread_clears_ready_at_zero : Prop :=
  forall P G c chain limit w st rest n w1,
    NGX_HAVE_FIONREAD P = true ->
    kqueue_active P G = false ->
    pre_read_gate P G c w = None ->
    coalesce P chain limit = CoDone st rest ->
    vectored_read P (co_vec st) w = Some (n, w1) ->
    0 < n ->
    0 <= available (read c) ->
    exists r,
      ngx_readv_chain P G c chain limit w = Ret r
      /\ (available (read c) - n <= 0 ->
          available (read (conn r)) = 0 /\ ready (read (conn r)) = false).

(** C8 as the spec words it: after a short read the last markers have
    advanced over the bytes delivered. *)
Definition short_read_advances_last : Prop :=
  forall P G c chain limit w st rest n w1,
    pre_read_gate P G c w = None ->
    coalesce P chain limit = CoDone st rest ->
    vectored_read P (co_vec st) w = Some (n, w1) ->
    0 < n < co_size st ->
    exists r,
      ngx_readv_chain P G c chain limit w = Ret r
      /\ chain_after r = spec_advance n chain.

(** ** Notions used by the further properties *)

(** The connection [c'] left by a call on [c]: [ready] is at most cleared,
    [eof] and [error] are at most set, and nothing else but the hint
    differs. *)
Definition flags_only_degrade (c c' : ngx_connection_t) : Prop :=
  (ready (read c') = true -> ready (read c) = true)
  /\ (eof (read c) = true -> eof (read c') = true)
  /\ (error (read c) = true -> error (read c') = true)
  /\ pending_eof (read c') = pending_eof (read c)
  /\ kq_errno (read c') = kq_errno (read c)
  /\ fd c' = fd c
  /\ log_error c' = log_error c.

(** The vectored read gets as far as the kernel: always with [readv]; with
    the shim when the array is not empty, no length is negative and the
    total is neither rejected nor zero. *)
Definition reaches_kernel (P : platform) (vec : list iovec) : bool :=
  negb (__KOS__ P)
  || (negb (0 >=? Z.of_nat (length vec))
      && match kos_total P vec 0 with
         | Some t => negb (to_size P t >? SIZE_MAX P) && negb (t =? 0)
         | None => false
         end).

(** The number of entries the chain needs after a buffer that ended at
    [prev]: one for every buffer whose [last] is not the end of the buffer
    before it. *)
Fixpoint entries_after (prev : Z) (chain : ngx_chain_t) : nat :=
  match chain with
  | [] => O
  | b :: rest =>
      let here := if prev =? buf_last b then O else S O in
      (here + entries_after (buf_end b) rest)%nat
  end.

(** The address [a] lies in the free region of a buffer of the chain. *)
Definition in_free (chain : ngx_chain_t) (a : Z) : Prop :=
  Exists (fun b => buf_last b <= a < buf_end b) chain.

(** The address [a] lies in a region of the array. *)
Definition in_regions (vec : list iovec) (a : Z) : Prop :=
  Exists (fun v => iov_base v <= a < iov_base v + iov_len v) vec.

(** ** Proof automation *)

Ltac split_ifs :=
  repeat match goal with
         | |- context [if ?b then _ else _] => destruct b eqn:?
         end.

Ltac split_matches :=
  repeat match goal with
         | |- context [match ?x with _ => _ end] => destruct x eqn:?
         end.

(** Refutes membership of a concrete address in concrete regions. *)
Ltac outside :=
  let H := fresh "H" in
  intro H;
  repeat (apply Exists_cons in H;
          destruct H as [H | H];
          [cbn [buf_last buf_end iov_base iov_len] in H; lia |]);
  inversion H.

(** Decides a closed comparison of integers by evaluation. *)
Ltac by_eval :=
  repeat split; vm_compute; first [reflexivity | intro; discriminate].

(** ** Sanity checks of the embedding *)

Example scenario_A :
  exists r,
    ngx_readv_chain (unix_platform false false true true) (mkGlobals 0 false)
      (fresh_conn 40 false 0) [mkBuf 1000 1100] 0
      (script [ReadOk (repeat 7 40)]) = Ret r
    /\ ret r = 40 /\ available (read (conn r)) = 0
    /\ ready (read (conn r)) = false.
Proof. eexists; split; [vm_compute; reflexivity | repeat split]. Qed.

Example scenario_B :
  ngx_readv_chain (unix_platform true false false true) (mkGlobals 8 false)
    (fresh_conn 0 false 0) [mkBuf 1000 1100] 0 (script [ReadOk [1]])
  = Ret (mkResult (-2) (fresh_conn 0 false 0) [mkBuf 1000 1100]
                  (script [ReadOk [1]])).
Proof. reflexivity. Qed.

Example scenario_E :
  exists st,
    coalesce (mkPlatform false false false true 2 (2 ^ 64 - 1) 8 64 32
                         (-1) (-2) 11 4 22 (fun _ _ => -1))
             [mkBuf 100 110; mkBuf 200 210; mkBuf 300 310] 0
    = CoDone st [mkBuf 300 310]
    /\ co_vec st = [mkIov 100 10; mkIov 200 10] /\ co_size st = 20.
Proof. eexists; split; [vm_compute; reflexivity | split; reflexivity]. Qed.

(** ** The pre-read gate *)

Section Gate.

Variable P : platform.
Variable G : ngx_globals.

Lemma pre_read_gate_world c w w' :
  pre_read_gate P G c w = None -> pre_read_gate P G c w' = None.
Proof.
  unfold pre_read_gate, kqueue_gate.
  destruct (NGX_HAVE_KQUEUE P && flag G (NGX_USE_KQUEUE_EVENT P)); cbn;
    [destruct (available (read c) =? 0); cbn;
     [destruct (pending_eof (read c)); cbn;
      [destruct (kq_errno (read c) =? 0); cbn; discriminate | discriminate] |] |];
    destruct (epoll_gate P G c); congruence.
Qed.

(** C1. With kqueue in use and an available hint of exactly zero:
    without pending EOF the call returns NGX_AGAIN and leaves connection
    and world as they were; with pending EOF it clears ready and sets eof,
    and then either sets error, publishes the kqueue error code as the
    socket errno and returns NGX_ERROR (a code is present), or returns 0.
    In all three cases the script of read answers is untouched: no read
    is issued. *)
Theorem kqueue_zero_hint_gate (c : ngx_connection_t) (chain : ngx_chain_t)
        (limit : Z) (w : world)
        (Hbuild : NGX_HAVE_KQUEUE P = true)
        (Hflag : flag G (NGX_USE_KQUEUE_EVENT P) = true)
        (Hzero : available (read c) = 0) :
  (pending_eof (read c) = false ->
   ngx_readv_chain P G c chain limit w
   = Ret (mkResult (NGX_AGAIN P) c chain w))
  /\ (pending_eof (read c) = true -> kq_errno (read c) <> 0 ->
      ngx_readv_chain P G c chain limit w
      = Ret (mkResult (NGX_ERROR P)
               (set_read (set_error true (set_eof true (set_ready false (read c)))) c)
               chain (set_errno (kq_errno (read c)) w))
      /\ reads (set_errno (kq_errno (read c)) w) = reads w)
  /\ (pending_eof (read c) = true -> kq_errno (read c) = 0 ->
      ngx_readv_chain P G c chain limit w
      = Ret (mkResult 0 (set_read (set_eof true (set_ready false (read c))) c)
               chain w)).
Proof.
  unfold ngx_readv_chain, pre_read_gate, kqueue_gate.
  rewrite Hbuild, Hflag, Hzero. cbn.
  split; [| split].
  - intros Hp. rewrite Hp. reflexivity.
  - intros Hp He. rewrite Hp. cbn.
    apply Z.eqb_neq in He. rewrite He. split; reflexivity.
  - intros Hp He. rewrite Hp. cbn. rewrite He. reflexivity.
Qed.

(** C7, as amended. With epoll in use, no pending EOF and an available
    hint of exactly zero, the call returns NGX_AGAIN and leaves connection
    and world as they were, so no read is issued. *)
Theorem epoll_gate_zero_hint (c : ngx_connection_t) (chain : ngx_chain_t)
        (limit : Z) (w : world)
        (Hbuild : NGX_HAVE_EPOLLRDHUP P = true)
        (Hflag : flag G (NGX_USE_EPOLL_EVENT P) = true)
        (Hpeof : pending_eof (read c) = false)
        (Hzero : available (read c) = 0) :
  ngx_readv_chain P G c chain limit w = Ret (mkResult (NGX_AGAIN P) c chain w).
Proof.
  unfold ngx_readv_chain, pre_read_gate, kqueue_gate, epoll_gate.
  rewrite Hbuild, Hflag, Hzero, Hpeof. cbn.
  destruct (NGX_HAVE_KQUEUE P && flag G (NGX_USE_KQUEUE_EVENT P)); reflexivity.
Qed.

End Gate.

Lemma kqueue_zero_hint_gate_witness :
  ngx_readv_chain (unix_platform true false false true) (mkGlobals 8 false)
    (fresh_conn 0 true 0) [mkBuf 1000 1100] 0 (script [ReadOk [1]])
  = Ret (mkResult 0
           (mkConn (mkEvent false true false true 0 0) 3 0)
           [mkBuf 1000 1100] (script [ReadOk [1]])).
Proof.
  apply (kqueue_zero_hint_gate (unix_platform true false false true)
           (mkGlobals 8 false) (fresh_conn 0 true 0) [mkBuf 1000 1100] 0
           (script [ReadOk [1]]) eq_refl eq_refl eq_refl); reflexivity.
Defined.

Lemma epoll_gate_zero_hint_witness :
  ngx_readv_chain (unix_platform false true true true) (mkGlobals 64 true)
    (fresh_conn 0 false 0) [mkBuf 1000 1100] 0 (script [ReadOk [1]])
  = Ret (mkResult (-2) (fresh_conn 0 false 0) [mkBuf 1000 1100]
           (script [ReadOk [1]])).
Proof.
  apply (epoll_gate_zero_hint (unix_platform false true true true)
           (mkGlobals 64 true) (fresh_conn 0 false 0) [mkBuf 1000 1100] 0
           (script [ReadOk [1]]) eq_refl eq_refl eq_refl eq_refl).
Defined.

(** C7, counterexample. With a hint of 5 and no pending EOF, under epoll,
    the call issues the read and returns the 3 bytes it got. *)
Lemma epoll_gate_unconditional_fails : ~ epoll_gate_unconditional.
Proof.
  intros H.
  destruct (H (unix_platform false true true true) (mkGlobals 64 true)
              (fresh_conn 5 false 0) [mkBuf 1000 1100] 0
              (script [ReadOk [7; 7; 7]]) eq_refl eq_refl eq_refl)
    as (r & Hr & Hret & _).
  vm_compute in Hr. injection Hr as <-. discriminate Hret.
Qed.

(** ** After the read *)

(** A value within the range of [int] is stored as it is. *)
Lemma to_int_small x : INT_MIN <= x <= INT_MAX -> to_int x = x.
Proof.
  unfold INT_MIN, INT_MAX, to_int. intros H.
  rewrite Z.mod_small by lia. lia.
Qed.

Section Dispatch.

Variable P : platform.
Variable G : ngx_globals.

Lemma ngx_readv_chain_issue c chain limit w st rest :
  pre_read_gate P G c w = None ->
  coalesce P chain limit = CoDone st rest ->
  ngx_readv_chain P G c chain limit w
  = read_loop P G (S (length (reads w))) (co_vec st) (co_size st) c chain w.
Proof. unfold ngx_readv_chain. intros -> ->. reflexivity. Qed.

Lemma read_loop_data fuel vec size c chain w n w1 :
  vectored_read P vec w = Some (n, w1) -> 0 < n ->
  read_loop P G (S fuel) vec size c chain w = on_data P G n size c chain w1.
Proof.
  intros Hv Hn. cbn [read_loop]. rewrite Hv.
  replace (n =? 0) with false by lia. replace (n >? 0) with true by lia.
  reflexivity.
Qed.

Lemma read_loop_failed fuel vec size c chain w n w1 :
  vectored_read P vec w = Some (n, w1) -> n < 0 ->
  read_loop P G (S fuel) vec size c chain w
  = if (errno w1 =? NGX_EAGAIN P) || (errno w1 =? NGX_EINTR P)
    then if errno w1 =? NGX_EINTR P
         then read_loop P G fuel vec size c chain w1
         else Ret (after_loop P (NGX_AGAIN P) c chain w1)
    else Ret (after_loop P (ngx_connection_error P c (errno w1)) c chain w1).
Proof.
  intros Hv Hn. cbn [read_loop]. rewrite Hv.
  replace (n =? 0) with false by lia. replace (n >? 0) with false by lia.
  reflexivity.
Qed.

(** The pending-byte query is made only in a FIONREAD build without
    kqueue, with an unknown hint and a full read. In every other case the
    branch for [n > 0] returns, and returns [n]. *)
Lemma on_data_no_query n size c chain w :
  0 <= available (read c) \/ n <> size
  \/ NGX_HAVE_FIONREAD P = false \/ kqueue_active P G = true ->
  exists r, on_data P G n size c chain w = Ret r /\ ret r = n
            /\ chain_after r = chain /\ world_after r = w.
Proof.
  unfold kqueue_active, on_data, on_data_tail. intros H.
  destruct (NGX_HAVE_KQUEUE P && flag G (NGX_USE_KQUEUE_EVENT P)) eqn:Hk;
    [eexists; split; [reflexivity | cbn; auto] |].
  destruct (NGX_HAVE_FIONREAD P) eqn:Hf;
    [| split_ifs; eexists; (split; [reflexivity |]); cbn; auto].
  destruct (available (read c) >=? 0) eqn:Ha;
    [split_ifs; eexists; (split; [reflexivity |]); cbn; auto |].
  destruct (n =? size) eqn:Hs;
    [| split_ifs; eexists; (split; [reflexivity |]); cbn; auto].
  exfalso. destruct H as [H | [H | [H | H]]]; try discriminate; lia.
Qed.

(** C4, as amended. After a successful read of n bytes with a hint h
    that was not negative, the call returns n and the hint is still not
    negative. Where the hint is decremented and not reset, that is under
    kqueue, or in a FIONREAD build unless epoll with EPOLLRDHUP saw a short
    read, the new hint is h - n when h >= n, and zero when h < n and
    h - n is within the range of int. *)
Theorem hint_after_read (c : ngx_connection_t) (chain : ngx_chain_t)
        (limit : Z) (w : world) (st : co_state) (rest : ngx_chain_t)
        (n : Z) (w1 : world)
        (Hgate : pre_read_gate P G c w = None)
        (Hco : coalesce P chain limit = CoDone st rest)
        (Hread : vectored_read P (co_vec st) w = Some (n, w1))
        (Hn : 0 < n)
        (Hh : 0 <= available (read c))
        (Hint : available (read c) <= INT_MAX) :
  exists r,
    ngx_readv_chain P G c chain limit w = Ret r
    /\ ret r = n
    /\ 0 <= available (read (conn r))
    /\ (kqueue_active P G = true
        \/ (NGX_HAVE_FIONREAD P = true
            /\ (epoll_rdhup_active P G = false \/ co_size st <= n)) ->
        (n <= available (read c) ->
         available (read (conn r)) = available (read c) - n)
        /\ (available (read c) < n -> INT_MIN <= available (read c) - n ->
            available (read (conn r)) = 0)).
Proof.
  rewrite (ngx_readv_chain_issue _ _ _ _ _ _ Hgate Hco).
  rewrite (read_loop_data _ _ _ _ _ _ _ _ Hread Hn).
  pose proof (to_int_small (available (read c) - n)) as Hfit.
  unfold INT_MIN, INT_MAX in *.
  unfold kqueue_active, epoll_rdhup_active, on_data, on_data_tail.
  replace (available (read c) >=? 0) with true by lia.
  destruct (NGX_HAVE_KQUEUE P && flag G (NGX_USE_KQUEUE_EVENT P));
    destruct (NGX_HAVE_FIONREAD P);
    destruct (NGX_HAVE_EPOLLRDHUP P
              && (flag G (NGX_USE_EPOLL_EVENT P) && ngx_use_epoll_rdhup G));
    cbn iota; split_ifs; eexists; (split; [reflexivity |]); cbn in *;
    (split; [reflexivity |]); (split; [lia |]);
    intros [Hk | [Hf Hs]]; try discriminate; try lia;
    destruct Hs; try discriminate; lia.
Qed.

(** C6, as amended. In a FIONREAD build without kqueue, after a
    successful read of n bytes with a hint h that was not negative: when
    h < n (with h - n within the range of int) the hint is clamped to zero
    and ready is cleared; when h >= n the hint becomes h - n (zero when
    h = n) unless epoll with EPOLLRDHUP saw a short read, and ready is left
    as it was when the read was not short. *)
Theorem fionread_hint_update (c : ngx_connection_t) (chain : ngx_chain_t)
        (limit : Z) (w : world) (st : co_state) (rest : ngx_chain_t)
        (n : Z) (w1 : world)
        (Hbuild : NGX_HAVE_FIONREAD P = true)
        (Hkq : kqueue_active P G = false)
        (Hgate : pre_read_gate P G c w = None)
        (Hco : coalesce P chain limit = CoDone st rest)
        (Hread : vectored_read P (co_vec st) w = Some (n, w1))
        (Hn : 0 < n)
        (Hh : 0 <= available (read c))
        (Hint : available (read c) <= INT_MAX) :
  exists r,
    ngx_readv_chain P G c chain limit w = Ret r
    /\ ret r = n
    /\ (available (read c) < n -> INT_MIN <= available (read c) - n ->
        available (read (conn r)) = 0 /\ ready (read (conn r)) = false)
    /\ (n <= available (read c) ->
        epoll_rdhup_active P G = false \/ co_size st <= n ->
        available (read (conn r)) = available (read c) - n)
    /\ (n <= available (read c) -> co_size st <= n ->
        ready (read (conn r)) = ready (read c)).
Proof.
  rewrite (ngx_readv_chain_issue _ _ _ _ _ _ Hgate Hco).
  rewrite (read_loop_data _ _ _ _ _ _ _ _ Hread Hn).
  pose proof (to_int_small (available (read c) - n)) as Hfit.
  unfold INT_MIN, INT_MAX in *.
  unfold kqueue_active in Hkq.
  unfold epoll_rdhup_active, on_data, on_data_tail.
  rewrite Hkq, Hbuild.
  replace (available (read c) >=? 0) with true by lia.
  destruct (NGX_HAVE_EPOLLRDHUP P
            && (flag G (NGX_USE_EPOLL_EVENT P) && ngx_use_epoll_rdhup G));
    cbn iota; split_ifs; eexists; (split; [reflexivity |]); cbn in *;
    (split; [reflexivity |]);
    (split; [intros; split; (reflexivity || lia) |]);
    (split; [intros ? [? | ?]; try discriminate; lia |]);
    intros; (reflexivity || lia).
Qed.

End Dispatch.

(** ** Failed reads, and the chain after the call *)

Section Failure.

Variable P : platform.
Variable G : ngx_globals.

Lemma read_loop_frame fuel vec size c chain w r :
  read_loop P G fuel vec size c chain w = Ret r -> chain_after r = chain.
Proof.
  revert w. induction fuel as [| fuel IH]; intros w; cbn [read_loop];
    [discriminate |].
  destruct (vectored_read P vec w) as [[n w1] |]; [| discriminate].
  destruct (n =? 0); [intros [= <-]; reflexivity |].
  destruct (n >? 0).
  - unfold on_data, on_data_tail, after_loop.
    destruct (nreads w1) as [| [pending | e] tn];
      split_ifs; intros [= <-]; reflexivity.
  - unfold after_loop.
    destruct ((errno w1 =? NGX_EAGAIN P) || (errno w1 =? NGX_EINTR P)).
    + destruct (errno w1 =? NGX_EINTR P); [apply IH |].
      split_ifs; intros [= <-]; reflexivity.
    + split_ifs; intros [= <-]; reflexivity.
Qed.

(** On every path that returns, the chain is as it was: no statement of
    the function assigns to a buffer marker or to a link. *)
Lemma ngx_readv_chain_frame c chain limit w r :
  ngx_readv_chain P G c chain limit w = Ret r -> chain_after r = chain.
Proof.
  unfold ngx_readv_chain.
  destruct (pre_read_gate P G c w) as [[[n c'] w'] |];
    [intros [= <-]; reflexivity |].
  destruct (coalesce P chain limit) as [st rest | |];
    [apply read_loop_frame | intros [= <-]; reflexivity | discriminate].
Qed.

(** C8, as amended. A read that returns n bytes with 0 < n less than the
    requested size makes the call return n with every buffer's last marker
    and every chain link as they were. *)
Theorem short_read_leaves_chain (c : ngx_connection_t) (chain : ngx_chain_t)
        (limit : Z) (w : world) (st : co_state) (rest : ngx_chain_t)
        (n : Z) (w1 : world)
        (Hgate : pre_read_gate P G c w = None)
        (Hco : coalesce P chain limit = CoDone st rest)
        (Hread : vectored_read P (co_vec st) w = Some (n, w1))
        (Hn : 0 < n < co_size st) :
  exists r,
    ngx_readv_chain P G c chain limit w = Ret r
    /\ ret r = n
    /\ chain_after r = chain.
Proof.
  rewrite (ngx_readv_chain_issue _ _ _ _ _ _ _ _ Hgate Hco).
  rewrite (read_loop_data _ _ _ _ _ _ _ _ _ _ Hread (proj1 Hn)).
  destruct (on_data_no_query P G n (co_size st) c chain w1) as (r & Hr & Hret & Hch & _);
    [right; left; lia |].
  exists r. auto.
Qed.

(** C5, as amended. Let the read primitive fail with error code err, the
    kernel's answer to the call. If err is NGX_EINTR the call behaves
    exactly as a call made after that answer, so a following success with
    n bytes is handled as if it had come first, and returns n when no
    pending-byte query follows. If err is NGX_EAGAIN the call returns
    NGX_AGAIN with ready cleared after that single read. For any other
    code the call returns what ngx_connection_error returns for it, with
    ready cleared, and with error set when that value is NGX_ERROR and
    left as it was otherwise. *)
Theorem read_failure_handling (c : ngx_connection_t) (chain : ngx_chain_t)
        (limit : Z) (w : world) (st : co_state) (rest : ngx_chain_t)
        (err : Z) (tr : list sys_read)
        (Hgate : pre_read_gate P G c w = None)
        (Hco : coalesce P chain limit = CoDone st rest)
        (Hscript : reads w = ReadErr err :: tr)
        (Hread : vectored_read P (co_vec st) w
                 = Some (-1, mkWorld (mem w) err tr (nreads w))) :
  let w1 := mkWorld (mem w) err tr (nreads w) in
  (err = NGX_EINTR P ->
   ngx_readv_chain P G c chain limit w = ngx_readv_chain P G c chain limit w1
   /\ forall n w2,
       vectored_read P (co_vec st) w1 = Some (n, w2) -> 0 < n ->
       ngx_readv_chain P G c chain limit w
       = on_data P G n (co_size st) c chain w2
       /\ (0 <= available (read c) \/ n <> co_size st
           \/ NGX_HAVE_FIONREAD P = false \/ kqueue_active P G = true ->
           exists r,
             ngx_readv_chain P G c chain limit w = Ret r /\ ret r = n))
  /\ (err = NGX_EAGAIN P -> err <> NGX_EINTR P ->
      exists r,
        ngx_readv_chain P G c chain limit w = Ret r
        /\ ret r = NGX_AGAIN P
        /\ ready (read (conn r)) = false
        /\ world_after r = w1)
  /\ (err <> NGX_EAGAIN P -> err <> NGX_EINTR P ->
      exists r,
        ngx_readv_chain P G c chain limit w = Ret r
        /\ ret r = ngx_connection_error P c err
        /\ ready (read (conn r)) = false
        /\ error (read (conn r))
           = (if ret r =? NGX_ERROR P then true else error (read c))
        /\ world_after r = w1).
Proof.
  intros w1.
  assert (Hstep : ngx_readv_chain P G c chain limit w
                  = if (err =? NGX_EAGAIN P) || (err =? NGX_EINTR P)
                    then if err =? NGX_EINTR P
                         then read_loop P G (S (length tr)) (co_vec st)
                                        (co_size st) c chain w1
                         else Ret (after_loop P (NGX_AGAIN P) c chain w1)
                    else Ret (after_loop P (ngx_connection_error P c err)
                                         c chain w1)).
  { rewrite (ngx_readv_chain_issue _ _ _ _ _ _ _ _ Hgate Hco).
    rewrite (read_loop_failed _ _ _ _ _ _ _ _ _ _ Hread ltac:(lia)).
    rewrite Hscript. reflexivity. }
  split; [| split].
  - intros He. rewrite Hstep.
    assert (Hretry : ngx_readv_chain P G c chain limit w1
                     = read_loop P G (S (length tr)) (co_vec st)
                                 (co_size st) c chain w1).
    { apply (ngx_readv_chain_issue P G c chain limit w1 st rest); [| exact Hco].
      exact (pre_read_gate_world P G c w w1 Hgate). }
    replace (err =? NGX_EINTR P) with true by lia.
    rewrite orb_true_r. split; [symmetry; exact Hretry |].
    intros n w2 Hv Hn.
    rewrite (read_loop_data _ _ _ _ _ _ _ _ _ _ Hv Hn).
    split; [reflexivity |]. intros Hq.
    destruct (on_data_no_query P G n (co_size st) c chain w2 Hq)
      as (r & Hr & Hret & _).
    exists r. auto.
  - intros He Hne. rewrite Hstep.
    replace (err =? NGX_EAGAIN P) with true by lia.
    replace (err =? NGX_EINTR P) with false by lia. cbn [orb].
    eexists. split; [reflexivity |]. unfold after_loop.
    destruct (NGX_AGAIN P =? NGX_ERROR P); cbn; auto.
  - intros Hne1 Hne2. rewrite Hstep.
    replace (err =? NGX_EAGAIN P) with false by lia.
    replace (err =? NGX_EINTR P) with false by lia. cbn [orb].
    eexists. split; [reflexivity |]. unfold after_loop.
    cbn [ret conn world_after read set_read].
    destruct (ngx_connection_error P c err =? NGX_ERROR P); cbn; auto.
Qed.

End Failure.

(** ** The dispatch theorems at concrete inputs *)

Lemma hint_after_read_witness :
  exists r,
    ngx_readv_chain (unix_platform true false false false) (mkGlobals 8 false)
      (fresh_conn 40 false 0) [mkBuf 1000 1100] 0
      (script [ReadOk (repeat 7 10)]) = Ret r
    /\ ret r = 10 /\ available (read (conn r)) = 30.
Proof.
  edestruct (hint_after_read (unix_platform true false false false)
               (mkGlobals 8 false) (fresh_conn 40 false 0)
               [mkBuf 1000 1100] 0 (script [ReadOk (repeat 7 10)]))
    as (r & Hr & Hret & _ & Hval);
    [reflexivity | reflexivity | reflexivity | reflexivity | by_eval
     | by_eval |].
  exists r. split; [exact Hr |]. split; [exact Hret |].
  apply (proj1 (Hval (or_introl eq_refl))). by_eval.
Defined.

Lemma fionread_hint_update_witness :
  exists r,
    ngx_readv_chain (unix_platform false false true false) (mkGlobals 0 false)
      (fresh_conn 5 false 0) [mkBuf 1000 1100] 0
      (script [ReadOk (repeat 7 10)]) = Ret r
    /\ ret r = 10 /\ available (read (conn r)) = 0
    /\ ready (read (conn r)) = false.
Proof.
  edestruct (fionread_hint_update (unix_platform false false true false)
               (mkGlobals 0 false) (fresh_conn 5 false 0)
               [mkBuf 1000 1100] 0 (script [ReadOk (repeat 7 10)]))
    as (r & Hr & Hret & Hlow & _);
    [reflexivity | reflexivity | reflexivity | reflexivity | reflexivity
     | reflexivity | by_eval | by_eval |].
  exists r. split; [exact Hr |]. split; [exact Hret |].
  apply Hlow; by_eval.
Defined.

Lemma short_read_leaves_chain_witness :
  exists r,
    ngx_readv_chain (unix_platform false false false true) (mkGlobals 0 false)
      (fresh_conn (-1) false 0) [mkBuf 1000 1100; mkBuf 2000 2050] 0
      (script [ReadOk (repeat 7 120)]) = Ret r
    /\ ret r = 120
    /\ chain_after r = [mkBuf 1000 1100; mkBuf 2000 2050].
Proof.
  edestruct (short_read_leaves_chain (unix_platform false false false true)
               (mkGlobals 0 false) (fresh_conn (-1) false 0)
               [mkBuf 1000 1100; mkBuf 2000 2050] 0
               (script [ReadOk (repeat 7 120)]))
    as (r & Hr & Hret & Hch);
    [reflexivity | reflexivity | reflexivity | by_eval |].
  exists r. auto.
Defined.

(** Scenario D: the first read is interrupted, the retry delivers 10 bytes
    and the call returns 10. *)
Lemma read_failure_handling_witness :
  exists r,
    ngx_readv_chain (unix_platform false false false true) (mkGlobals 0 false)
      (fresh_conn (-1) false 0) [mkBuf 1000 1100] 0
      (script [ReadErr 4; ReadOk (repeat 7 10)]) = Ret r
    /\ ret r = 10.
Proof.
  destruct (read_failure_handling (unix_platform false false false true)
              (mkGlobals 0 false) (fresh_conn (-1) false 0)
              [mkBuf 1000 1100] 0 (script [ReadErr 4; ReadOk (repeat 7 10)])
              (mkCo [mkIov 1000 100] 100 1100) []
              4 [ReadOk (repeat 7 10)] eq_refl eq_refl eq_refl eq_refl)
    as (Hintr & _ & _).
  destruct (Hintr eq_refl) as (_ & Hnext).
  edestruct Hnext as (_ & Hret); [reflexivity | reflexivity |].
  apply Hret. right. left. by_eval.
Defined.

(** C5, counterexample. The read fails with errno 104 on a connection
    whose log_error level is 3; ngx_connection_error reports 0, so the call
    returns 0 and the error flag stays clear. *)
Lemma other_errors_always_fatal_fails : ~ other_errors_always_fatal.
Proof.
  intros H.
  destruct (H lenient_platform (mkGlobals 0 false)
              (mkConn (fresh_event (-1) false 0) 3 3) [mkBuf 1000 1100] 0
              (script [ReadErr 104]) (mkCo [mkIov 1000 100] 100 1100) []
              104 [] eq_refl eq_refl eq_refl eq_refl
              ltac:(by_eval) ltac:(by_eval))
    as (r & Hr & Hret & _).
  vm_compute in Hr. injection Hr as <-. discriminate Hret.
Qed.

(** With a helper that reports the error, the same failure is fatal. *)
Example reset_is_fatal_when_reported :
  exists r,
    ngx_readv_chain lenient_platform (mkGlobals 0 false)
      (fresh_conn (-1) false 0) [mkBuf 1000 1100] 0 (script [ReadErr 104])
    = Ret r
    /\ ret r = -1 /\ error (read (conn r)) = true
    /\ ready (read (conn r)) = false.
Proof. eexists. split; [vm_compute; reflexivity | repeat split]. Qed.

(** The hint is an int: under kqueue, a hint of INT_MIN and a read of 10
    bytes leave 2147483638 in the hint, and ready as it was. *)
Example kqueue_hint_wraps :
  exists r,
    ngx_readv_chain (unix_platform true false false false) (mkGlobals 8 false)
      (fresh_conn (-2147483648) false 0) [mkBuf 1000 1100] 0
      (script [ReadOk (repeat 7 10)]) = Ret r
    /\ ret r = 10 /\ available (read (conn r)) = 2147483638
    /\ ready (read (conn r)) = true.
Proof. eexists. split; [vm_compute; reflexivity | repeat split]. Qed.

(** In the branch for n > 0 of a FIONREAD build, a hint of 0 and a read of
    more than 2 ^ 31 bytes that fills the request leave a positive hint,
    and ready as it was. *)
Example fionread_hint_wraps_on_huge_read :
  exists r,
    on_data (unix_platform false false true false) (mkGlobals 0 false)
            2147483653 2147483653 (fresh_conn 0 false 0) [] (script [])
    = Ret r
    /\ available (read (conn r)) = 2147483643
    /\ ready (read (conn r)) = true.
Proof. eexists. split; [vm_compute; reflexivity | repeat split]. Qed.

(** C4, counterexample. In a build without kqueue and FIONREAD the hint
    is not decremented: 40 stays 40 after a read of 10 bytes. *)
Lemma hint_always_decremented_fails : ~ hint_always_decremented.
Proof.
  intros H.
  edestruct (H (unix_platform false false false false) (mkGlobals 0 false)
               (fresh_conn 40 false 0) [mkBuf 1000 1100] 0
               (script [ReadOk (repeat 7 10)]))
    as (r & Hr & Hsub & _);
    [reflexivity | reflexivity | reflexivity | reflexivity | by_eval |].
  vm_compute in Hr. injection Hr as <-.
  specialize (Hsub ltac:(by_eval)). discriminate Hsub.
Qed.

(** The other way the hint departs from h - n: in a FIONREAD build with
    epoll and EPOLLRDHUP, a short read resets it to zero. *)
Example hint_reset_on_epoll_short_read :
  exists r,
    ngx_readv_chain (unix_platform false true true false) (mkGlobals 64 true)
      (fresh_conn 40 false 0) [mkBuf 1000 1100] 0
      (script [ReadOk (repeat 7 10)]) = Ret r
    /\ ret r = 10 /\ available (read (conn r)) = 0.
Proof. eexists. split; [vm_compute; reflexivity | split; reflexivity]. Qed.

(** C6, counterexample. With a hint of 40 and a read of 40 bytes that
    fills the 40 free bytes of the chain, the hint becomes zero and ready
    stays set. *)
Lemma fionread_clears_ready_at_zero_fails : ~ fionread_clears_ready_at_zero.
Proof.
  intros H.
  edestruct (H (unix_platform false false true false) (mkGlobals 0 false)
               (fresh_conn 40 false 0) [mkBuf 1000 1040] 0
               (script [ReadOk (repeat 7 40)]))
    as (r & Hr & Hclr);
    [reflexivity | reflexivity | reflexivity | reflexivity | reflexivity
     | reflexivity | by_eval |].
  vm_compute in Hr. injection Hr as <-.
  destruct (Hclr ltac:(by_eval)) as [_ Hready]. discriminate Hready.
Qed.

(** C8, counterexample. A buffer with 100 free bytes at 1000 receives 10
    bytes; its last marker is still 1000, not 1010. *)
Lemma short_read_advances_last_fails : ~ short_read_advances_last.
Proof.
  intros H.
  edestruct (H (unix_platform false false false true) (mkGlobals 0 false)
               (fresh_conn (-1) false 0) [mkBuf 1000 1100] 0
               (script [ReadOk (repeat 7 10)]))
    as (r & Hr & Hch);
    [reflexivity | reflexivity | reflexivity | by_eval |].
  vm_compute in Hr. injection Hr as <-.
  cbn in Hch. discriminate Hch.
Qed.

(** ** The coalescing loop *)

Section Coalescer.

Variable P : platform.

Lemma to_size_small x : 0 <= x <= SIZE_MAX P -> to_size P x = x.
Proof. intros H. unfold to_size. apply Z.mod_small. lia. Qed.

Lemma total_len_app a b : total_len (a ++ b) = total_len a + total_len b.
Proof.
  unfold total_len.
  induction a as [| v a IH]; cbn; [reflexivity | rewrite IH; lia].
Qed.

Lemma total_len_nonneg vec :
  Forall (fun v => 0 <= iov_len v) vec -> 0 <= total_len vec.
Proof. unfold total_len. induction 1; cbn; lia. Qed.

Lemma total_free_nonneg chain : Forall buf_ok chain -> 0 <= total_free chain.
Proof.
  unfold total_free.
  induction 1 as [| b chain Hb _ IH]; cbn; [lia |].
  destruct Hb as [_ Hb]. unfold free_space in *. lia.
Qed.

Lemma bump_last_snoc n v e :
  bump_last P n (v ++ [e])
  = Some (v ++ [mkIov (iov_base e) (to_size P (iov_len e + n))]).
Proof.
  induction v as [| a v IH]; [reflexivity |].
  cbn [app bump_last]. rewrite IH.
  destruct (v ++ [e]) eqn:Hv; [destruct v; discriminate | reflexivity].
Qed.

Lemma snoc_cases (vec : list iovec) :
  vec = [] \/ exists v e, vec = v ++ [e].
Proof.
  destruct vec as [| a vec]; [left; reflexivity | right].
  destruct (exists_last (l := a :: vec)) as (v & e & ->); [discriminate |].
  eauto.
Qed.



Lemma bump_last_some n vec vec' :
  bump_last P n vec = Some vec' -> exists v e, vec' = v ++ [e].
Proof.
  destruct (snoc_cases vec) as [-> | (v & e & ->)]; [discriminate |].
  rewrite bump_last_snoc. intros [= <-]. eauto.
Qed.


(** The chain of two valid buffers without a limit: one entry over both
    free regions when the first ends where the free region of the second
    starts, two entries otherwise. *)
Lemma coalesce_pair b1 b2 :
  buf_ok b1 -> buf_last b2 <= buf_end b2 ->
  free_space b1 + free_space b2 <= SIZE_MAX P ->
  1 < NGX_IOVS_PREALLOCATE P ->
  (buf_end b1 = buf_last b2 ->
   coalesce P [b1; b2] 0
   = CoDone (mkCo [mkIov (buf_last b1) (free_space b1 + free_space b2)]
                  (free_space b1 + free_space b2) (buf_end b2)) [])
  /\ (buf_end b1 <> buf_last b2 ->
      coalesce P [b1; b2] 0
      = CoDone (mkCo [mkIov (buf_last b1) (free_space b1);
                      mkIov (buf_last b2) (free_space b2)]
                     (free_space b1 + free_space b2) (buf_end b2)) []).
Proof.
  intros [Hnull H1] H2 Hmax Hcap. unfold free_space in *.
  unfold NULL in Hnull.
  assert (Hfirst : coalesce_loop P [b1; b2] 0 (mkCo [] 0 NULL)
                   = coalesce_loop P [b2] 0
                       (mkCo [mkIov (buf_last b1) (buf_end b1 - buf_last b1)]
                             (buf_end b1 - buf_last b1) (buf_end b1))).
  { cbn [coalesce_loop co_vec co_size co_prev length Z.of_nat].
    change (negb (0 =? 0)) with false. cbn [andb].
    unfold ngx_array_push, NULL. cbn [length Z.of_nat app].
    replace (0 =? buf_last b1) with false by lia.
    replace (0 =? NGX_IOVS_PREALLOCATE P) with false by lia.
    replace (0 <? NGX_IOVS_PREALLOCATE P) with true by lia.
    rewrite to_size_small by lia. reflexivity. }
  unfold coalesce. rewrite Hfirst.
  cbn [coalesce_loop co_vec co_size co_prev length].
  change (negb (0 =? 0)) with false. cbn [andb].
  split; intros Hadj.
  - replace (buf_end b1 =? buf_last b2) with true by lia.
    cbn [bump_last iov_base iov_len].
    rewrite to_size_small by lia. reflexivity.
  - replace (buf_end b1 =? buf_last b2) with false by lia.
    unfold ngx_array_push. cbn [app length]. change (Z.of_nat 1) with 1.
    replace (1 =? NGX_IOVS_PREALLOCATE P) with false by lia.
    replace (1 <? NGX_IOVS_PREALLOCATE P) with true by lia.
    rewrite to_size_small by lia. reflexivity.
Qed.


Lemma total_len_snoc v e : total_len (v ++ [e]) = total_len v + iov_len e.
Proof. rewrite total_len_app. unfold total_len. cbn. lia. Qed.

(** Whatever the buffers are, the size never passes a positive limit. *)
Lemma coalesce_loop_bounded chain limit st st' rest :
  0 < limit -> co_size st <= limit ->
  coalesce_loop P chain limit st = CoDone st' rest ->
  co_size st' <= limit.
Proof.
  intros Hlim. revert st.
  induction chain as [| cl next IH]; intros st Hst; cbn [coalesce_loop].
  - intros [= <- _]. exact Hst.
  - split_matches; try discriminate;
      try (intros [= <- _]; exact Hst);
      apply IH; cbn; lia.
Qed.

Lemma coalesce_loop_limited chain limit st :
  0 < limit <= SIZE_MAX P ->
  Forall buf_ok chain ->
  co_inv P limit st ->
  exists st' rest,
    coalesce_loop P chain limit st = CoDone st' rest
    /\ co_inv P limit st'
    /\ (rest = [] \/ limit <= co_size st' ->
        co_size st' = Z.min limit (co_size st + total_free chain))
    /\ (Z.of_nat (length chain) + Z.of_nat (length (co_vec st))
        <= NGX_IOVS_PREALLOCATE P ->
        rest = [] \/ limit <= co_size st').
Proof.
  intros Hlim Hok. revert st.
  induction Hok as [| cl next [Hnull Hle] Hok IH];
    intros st Hst; pose proof Hst as (Hsize & Hsum & Hpos & Hlen & Hprev).
  - exists st, []. cbn.
    split; [reflexivity |]. split; [exact Hst |].
    split; [lia | auto].
  - pose proof (total_free_nonneg next Hok) as Hfree.
    cbn [coalesce_loop total_free fold_right length].
    fold (total_free next). unfold free_space.
    destruct (negb (limit =? 0) && (co_size st >=? limit)) eqn:Hfull.
    + exists st, (cl :: next).
      split; [reflexivity |]. split; [exact Hst |].
      split; [lia | right; lia].
    + set (n := if negb (limit =? 0)
                   && (co_size st + (buf_end cl - buf_last cl) >? limit)
                then limit - co_size st else buf_end cl - buf_last cl).
      assert (Hn : n = Z.min (buf_end cl - buf_last cl) (limit - co_size st))
        by (subst n; split_ifs; lia).
      destruct (co_prev st =? buf_last cl) eqn:Hadj.
      * destruct (snoc_cases (co_vec st)) as [Hnil | (v & e & Hvec)];
          [specialize (Hprev Hnil); lia |].
        rewrite Hvec in *. rewrite bump_last_snoc.
        rewrite total_len_snoc in Hsum.
        apply Forall_app in Hpos. destruct Hpos as [Hv He].
        inversion He as [| ? ? He' _]; subst.
        pose proof (total_len_nonneg v Hv) as Hvn.
        rewrite to_size_small by lia.
        destruct (IH (mkCo (v ++ [mkIov (iov_base e) (iov_len e + n)])
                           (co_size st + n) (buf_end cl)))
          as (st' & rest & Hrun & Hinv & Hmin & Hroom).
        { unfold co_inv; cbn. split; [lia |].
          split; [rewrite total_len_snoc; cbn; lia |].
          split; [apply Forall_app; split;
                  [exact Hv | constructor; [cbn; lia | constructor]] |].
          split; [rewrite length_app in *; cbn [length] in *; lia |].
          intros Habs. destruct v; discriminate Habs. }
        exists st', rest. split; [exact Hrun |]. split; [exact Hinv |].
        cbn in Hmin, Hroom. split.
        -- intros H. rewrite (Hmin H). lia.
        -- intros H. apply Hroom. rewrite length_app in *. cbn [length] in *. lia.
      * destruct (Z.of_nat (length (co_vec st)) =? NGX_IOVS_PREALLOCATE P)
          eqn:Hcap.
        -- exists st, (cl :: next).
           split; [reflexivity |]. split; [exact Hst |].
           split; [intros [H | H]; [discriminate | lia] | lia].
        -- unfold ngx_array_push.
           replace (Z.of_nat (length (co_vec st)) <? NGX_IOVS_PREALLOCATE P)
             with true by lia.
           rewrite to_size_small by lia.
           destruct (IH (mkCo (co_vec st ++ [mkIov (buf_last cl) n])
                              (co_size st + n) (buf_end cl)))
             as (st' & rest & Hrun & Hinv & Hmin & Hroom).
           { unfold co_inv; cbn. split; [lia |].
             split; [rewrite total_len_snoc; cbn; lia |].
             split; [apply Forall_app; split;
                     [exact Hpos | constructor; [cbn; lia | constructor]] |].
             split; [rewrite length_app; cbn [length]; lia |].
             intros Habs. destruct (co_vec st); discriminate Habs. }
           exists st', rest. split; [exact Hrun |]. split; [exact Hinv |].
           cbn in Hmin, Hroom. split.
           ++ intros H. rewrite (Hmin H). lia.
           ++ intros H. apply Hroom. rewrite length_app. cbn [length]. lia.
Qed.

(** C2. Under a positive limit the size the loop requests never exceeds
    the limit, whatever the chain. On a chain of valid buffers (with the
    limit representable in size_t) the loop ends normally, the entry
    lengths add up to the size, and, unless the loop stopped for lack of
    room in the array, the size is the smaller of the limit and the chain's
    free space, so the region that would overshoot is cut down and the size
    is the limit exactly when the free space is at least the limit. A chain
    no longer than the array never runs out of room. *)
Theorem coalesce_respects_limit (chain : ngx_chain_t) (limit : Z)
        (Hlimit : 0 < limit) :
  (forall st rest,
      coalesce P chain limit = CoDone st rest -> co_size st <= limit)
  /\ (Forall buf_ok chain ->
      limit <= SIZE_MAX P ->
      0 <= NGX_IOVS_PREALLOCATE P ->
      exists st rest,
        coalesce P chain limit = CoDone st rest
        /\ total_len (co_vec st) = co_size st
        /\ (rest = [] \/ limit <= co_size st ->
            co_size st = Z.min limit (total_free chain)
            /\ (limit <= total_free chain -> co_size st = limit))
        /\ (Z.of_nat (length chain) <= NGX_IOVS_PREALLOCATE P ->
            rest = [] \/ limit <= co_size st)).
Proof.
  split.
  - intros st rest Hrun.
    apply (coalesce_loop_bounded chain limit (mkCo [] 0 NULL) st rest);
      [exact Hlimit | cbn; lia | exact Hrun].
  - intros Hok Hmax Hcap.
    destruct (coalesce_loop_limited chain limit (mkCo [] 0 NULL))
      as (st & rest & Hrun & (_ & Hsum & _) & Hmin & Hroom);
      [lia | exact Hok | |].
    { unfold co_inv; cbn. split; [lia |]. split; [reflexivity |].
      split; [constructor |]. split; [lia | reflexivity]. }
    exists st, rest. split; [exact Hrun |]. split; [exact Hsum |].
    cbn in Hmin, Hroom. split.
    + intros H. rewrite (Hmin H). split; lia.
    + intros H. apply Hroom. lia.
Qed.

End Coalescer.

(** ** Chains without free space *)

Section FullChain.

Variable P : platform.
Variable G : ngx_globals.

Lemma to_size_zero : to_size P 0 = 0.
Proof. unfold to_size. apply Zmod_0_l. Qed.

Lemma coalesce_loop_full chain limit st :
  0 <= limit ->
  Forall buf_full chain ->
  co_size st = 0 ->
  Forall (fun v => iov_len v = 0) (co_vec st) ->
  co_vec st <> [] ->
  Z.of_nat (length (co_vec st)) <= NGX_IOVS_PREALLOCATE P ->
  exists st' rest,
    coalesce_loop P chain limit st = CoDone st' rest
    /\ co_size st' = 0
    /\ Forall (fun v => iov_len v = 0) (co_vec st')
    /\ co_vec st' <> [].
Proof.
  intros Hlim Hfull. revert st.
  induction Hfull as [| cl next [_ Hcl] _ IH]; intros st Hsize Hzero Hne Hlen.
  - exists st, []. cbn. auto.
  - cbn [coalesce_loop]. rewrite Hsize, <- Hcl, Z.sub_diag.
    replace (negb (limit =? 0) && (0 >=? limit)) with false by lia.
    replace (negb (limit =? 0) && (0 + 0 >? limit)) with false by lia.
    destruct (co_prev st =? buf_last cl).
    + destruct (snoc_cases (co_vec st)) as [Hnil | (v & e & Hvec)];
        [contradiction |].
      rewrite Hvec in *. rewrite bump_last_snoc.
      apply Forall_app in Hzero. destruct Hzero as [Hv He].
      inversion He as [| ? ? He' _]; subst.
      rewrite He'. cbn [Z.add]. rewrite to_size_zero.
      apply IH; cbn.
      * reflexivity.
      * apply Forall_app. split; [exact Hv | repeat constructor].
      * intros Habs. destruct v; discriminate Habs.
      * rewrite length_app in *. exact Hlen.
    + destruct (Z.of_nat (length (co_vec st)) =? NGX_IOVS_PREALLOCATE P)
        eqn:Hcap.
      * exists st, (cl :: next). auto.
      * unfold ngx_array_push.
        replace (Z.of_nat (length (co_vec st)) <? NGX_IOVS_PREALLOCATE P)
          with true by lia.
        rewrite to_size_zero.
        apply IH; cbn.
        -- reflexivity.
        -- apply Forall_app. split; [exact Hzero | repeat constructor].
        -- intros Habs. destruct (co_vec st); discriminate Habs.
        -- rewrite length_app. cbn [length]. lia.
Qed.

Lemma kos_total_zero vec :
  0 <= SIZE_MAX P ->
  Forall (fun v => iov_len v = 0) vec -> kos_total P vec 0 = Some 0.
Proof.
  intros Hmax. induction 1 as [| v vec Hv _ IH]; [reflexivity |].
  cbn [kos_total]. rewrite Hv. cbn [Z.gtb Z.compare Z.add].
  rewrite to_size_zero. unfold to_ssize. rewrite Zmod_0_l.
  replace (0 <=? SIZE_MAX P / 2) with true; [exact IH |].
  symmetry. apply Z.leb_le. apply Z.div_pos; lia.
Qed.

(** C10. In a build with the shim, let the call get past the gate with a
    chain that is not empty and whose buffers are all full. The loop still
    produces entries, all of length zero; kos_readv returns 0 on them and
    leaves the world as it was, so it performs no read; and the call sets
    eof, clears ready and returns 0, whatever the state of the peer. *)
Theorem full_chain_reports_eof (c : ngx_connection_t) (chain : ngx_chain_t)
        (limit : Z) (w : world)
        (Hkos : __KOS__ P = true)
        (Hne : chain <> [])
        (Hfull : Forall buf_full chain)
        (Hlimit : 0 <= limit)
        (Hcap : 0 < NGX_IOVS_PREALLOCATE P)
        (Hmax : 0 <= SIZE_MAX P)
        (Hgate : pre_read_gate P G c w = None) :
  exists st rest r,
    coalesce P chain limit = CoDone st rest
    /\ co_vec st <> []
    /\ Forall (fun v => iov_len v = 0) (co_vec st)
    /\ kos_readv P (co_vec st) (Z.of_nat (length (co_vec st))) w = Some (0, w)
    /\ ngx_readv_chain P G c chain limit w = Ret r
    /\ ret r = 0
    /\ eof (read (conn r)) = true
    /\ ready (read (conn r)) = false
    /\ world_after r = w.
Proof.
  destruct chain as [| b next]; [contradiction |].
  inversion Hfull as [| ? ? [Hnull Hb] Hnext]; subst.
  assert (Hrun : exists st rest,
             coalesce P (b :: next) limit = CoDone st rest
             /\ co_size st = 0
             /\ Forall (fun v => iov_len v = 0) (co_vec st)
             /\ co_vec st <> []).
  { unfold coalesce. cbn [coalesce_loop co_size co_prev co_vec length Z.of_nat].
    rewrite <- Hb, Z.sub_diag.
    replace (negb (limit =? 0) && (0 >=? limit)) with false by lia.
    replace (negb (limit =? 0) && (0 + 0 >? limit)) with false by lia.
    replace (NULL =? buf_last b) with false by (unfold NULL in *; lia).
    replace (0 =? NGX_IOVS_PREALLOCATE P) with false by lia.
    unfold ngx_array_push. cbn [length app Z.of_nat].
    replace (0 <? NGX_IOVS_PREALLOCATE P) with true by lia.
    rewrite to_size_zero.
    apply coalesce_loop_full; cbn; try assumption; try reflexivity.
    - repeat constructor.
    - discriminate.
    - lia. }
  destruct Hrun as (st & rest & Hco & Hsize & Hzero & Hvec).
  assert (Hshim : kos_readv P (co_vec st) (Z.of_nat (length (co_vec st))) w
                  = Some (0, w)).
  { unfold kos_readv.
    assert (Hpos : 0 < Z.of_nat (length (co_vec st)))
      by (destruct (co_vec st); [contradiction | cbn [length]; lia]).
    replace (0 >=? Z.of_nat (length (co_vec st))) with false by lia.
    rewrite (kos_total_zero _ Hmax Hzero). rewrite to_size_zero.
    replace (0 >? SIZE_MAX P) with false by lia. reflexivity. }
  exists st, rest, (on_eof P G c (b :: next) w).
  split; [exact Hco |]. split; [exact Hvec |]. split; [exact Hzero |].
  split; [exact Hshim |]. split.
  - rewrite (ngx_readv_chain_issue _ _ _ _ _ _ _ _ Hgate Hco).
    cbn [read_loop]. unfold vectored_read. rewrite Hkos, Hshim. reflexivity.
  - unfold on_eof. split_ifs; cbn; auto.
Qed.

End FullChain.

(** ** The shim against readv *)

Section Shim.

Variable P : platform.

Lemma half_range x : 0 <= x <= SIZE_MAX P / 2 -> 0 <= x <= SIZE_MAX P.
Proof. intros H. Z.div_mod_to_equations. lia. Qed.

Lemma to_ssize_small x : 0 <= x <= SIZE_MAX P / 2 -> to_ssize P x = x.
Proof.
  intros H. pose proof (half_range x H).
  unfold to_ssize. rewrite Z.mod_small by lia.
  replace (x <=? SIZE_MAX P / 2) with true by lia. reflexivity.
Qed.

(** Without wrap-around the first loop of the shim adds up the lengths. *)
Lemma kos_total_sum iov acc :
  Forall (fun v => 0 <= iov_len v) iov ->
  0 <= acc ->
  acc + total_len iov <= SIZE_MAX P / 2 ->
  kos_total P iov acc = Some (acc + total_len iov).
Proof.
  intros Hlens. revert acc.
  induction Hlens as [| v iov Hv Hlens IH]; intros acc Hacc Hsum.
  - cbn. f_equal. lia.
  - pose proof (total_len_nonneg iov Hlens) as Hrest.
    unfold total_len in *. cbn [kos_total fold_right] in *.
    replace (0 >? iov_len v) with false by lia.
    rewrite (to_size_small P acc) by (apply half_range; lia).
    rewrite to_ssize_small by lia.
    rewrite IH by lia. f_equal. lia.
Qed.

(** The staging buffer holds zeros from the number of bytes read on. *)
Lemma staging_zero count bytes i :
  Z.of_nat (length (firstn (Z.to_nat count) bytes)) <= i ->
  nth (Z.to_nat i) (staging count bytes) 0 = 0.
Proof.
  intros Hi. unfold staging.
  rewrite app_nth2 by lia. apply nth_repeat.
Qed.

Lemma kos_copy_app l1 l2 buffer off m :
  Forall (fun v => 0 <= iov_len v) l1 ->
  0 <= off ->
  off + total_len l1 <= SIZE_MAX P ->
  kos_copy P (l1 ++ l2) buffer off m
  = kos_copy P l2 buffer (off + total_len l1) (kos_copy P l1 buffer off m).
Proof.
  intros Hlens. revert off m.
  induction Hlens as [| v l1 Hv Hlens IH]; intros off m Hoff Hsum.
  - cbn. f_equal. lia.
  - pose proof (total_len_nonneg l1 Hlens) as Hrest.
    unfold total_len in *. cbn [kos_copy app fold_right] in *.
    rewrite (to_size_small P (off + iov_len v)) by lia.
    rewrite IH by lia. f_equal. lia.
Qed.

(** Copies out of the zero part of the staging buffer keep a zero byte
    zero. *)
Lemma kos_copy_zero iov buffer rb off m a :
  (forall i, rb <= i -> nth (Z.to_nat i) buffer 0 = 0) ->
  Forall (fun v => 0 <= iov_len v) iov ->
  rb <= off -> 0 <= off ->
  off + total_len iov <= SIZE_MAX P ->
  m a = 0 ->
  kos_copy P iov buffer off m a = 0.
Proof.
  intros Hbuf Hlens. revert off m.
  induction Hlens as [| v iov Hv Hlens IH]; intros off m Hrb Hoff Hsum Hm.
  - exact Hm.
  - pose proof (total_len_nonneg iov Hlens) as Hrest.
    unfold total_len in *. cbn [kos_copy fold_right] in *.
    rewrite (to_size_small P (off + iov_len v)) by lia.
    apply IH; try lia.
    unfold memcpy.
    destruct ((iov_base v <=? a) && (a <? iov_base v + iov_len v)) eqn:Hin;
      [apply Hbuf; lia | exact Hm].
Qed.

(** [readv] leaves alone every address that is not among the first bytes
    of the regions, as many as there are bytes of data. *)
Lemma scatter_frame iov data m a :
  Forall (fun v => 0 <= iov_len v) iov ->
  (forall pre v post k,
      iov = pre ++ v :: post -> 0 <= k < iov_len v ->
      total_len pre + k < Z.of_nat (length data) ->
      iov_base v + k <> a) ->
  scatter iov data m a = m a.
Proof.
  intros Hlens. revert data m.
  induction Hlens as [| v iov Hv Hlens IH]; intros data m Hout;
    [reflexivity |].
  cbn [scatter]. rewrite IH.
  - unfold store_bytes.
    destruct ((iov_base v <=? a)
              && (a <? iov_base v
                       + Z.of_nat (length (firstn (Z.to_nat (iov_len v)) data))))
      eqn:Hin; [| reflexivity].
    exfalso. rewrite length_firstn in Hin.
    apply andb_prop in Hin. destruct Hin as [Hlo Hhi].
    apply Z.leb_le in Hlo. apply Z.ltb_lt in Hhi.
    apply (Hout [] v iov (a - iov_base v)); [reflexivity | lia | | lia].
    unfold total_len. cbn. lia.
  - intros pre v' post k Heq Hk Hlt.
    apply (Hout (v :: pre) v' post k); [rewrite Heq; reflexivity | exact Hk |].
    rewrite length_skipn in Hlt.
    assert (Hpre : 0 <= total_len pre).
    { apply total_len_nonneg. rewrite Heq in Hlens.
      apply Forall_app in Hlens. exact (proj1 Hlens). }
    unfold total_len in *. cbn [fold_right]. lia.
Qed.

(** C9. Let the kernel answer the shim's read with fewer bytes than the
    regions hold (and at least one), the lengths being valid and their sum
    within ssize_t. Then kos_readv returns that count, as readv does, but
    every byte of a region that lies past the count in the order of the
    regions is zero afterwards, since whole regions are copied from the
    zeroed staging buffer. readv leaves such a byte as it was when the byte
    is not also among the bytes delivered, so the two differ wherever it was
    not zero before. *)
Theorem kos_readv_zero_fills (iov : list iovec) (w : world)
        (bytes : list Z) (tr : list sys_read)
        (Hlens : Forall (fun v => 0 <= iov_len v) iov)
        (Htotal : total_len iov <= SIZE_MAX P / 2)
        (Hscript : reads w = ReadOk bytes :: tr)
        (Hshort : 0 < Z.of_nat (length bytes) < total_len iov) :
  exists wk wr,
    kos_readv P iov (Z.of_nat (length iov)) w
    = Some (Z.of_nat (length bytes), wk)
    /\ readv iov (Z.of_nat (length iov)) w
       = Some (Z.of_nat (length bytes), wr)
    /\ forall pre v post k,
        iov = pre ++ v :: post ->
        0 <= k < iov_len v ->
        Z.of_nat (length bytes) <= total_len pre + k ->
        mem wk (iov_base v + k) = 0
        /\ ((forall pre' v' post' k',
                iov = pre' ++ v' :: post' ->
                0 <= k' < iov_len v' ->
                total_len pre' + k' < Z.of_nat (length bytes) ->
                iov_base v' + k' <> iov_base v + k) ->
            mem wr (iov_base v + k) = mem w (iov_base v + k)
            /\ (mem w (iov_base v + k) <> 0 ->
                mem wk (iov_base v + k) <> mem wr (iov_base v + k))).
Proof.
  assert (Hfirst : firstn (Z.to_nat (total_len iov)) bytes = bytes)
    by (apply firstn_all2; lia).
  assert (Hmax : 0 <= total_len iov <= SIZE_MAX P)
    by (apply half_range; lia).
  assert (Hcount : to_size P (total_len iov) = total_len iov)
    by (apply to_size_small; lia).
  exists (mkWorld (kos_copy P iov (staging (total_len iov) bytes) 0 (mem w))
                  (errno w) tr (nreads w)).
  exists (mkWorld (scatter iov bytes (mem w)) (errno w) tr (nreads w)).
  split; [| split].
  - unfold kos_readv.
    assert (Hpos : 0 < Z.of_nat (length iov)).
    { destruct iov; [| cbn [length]; lia].
      unfold total_len in Hshort. cbn [fold_right] in Hshort. lia. }
    replace (0 >=? Z.of_nat (length iov)) with false by lia.
    rewrite (kos_total_sum iov 0 Hlens) by lia. cbn [Z.add].
    rewrite Hcount.
    replace (total_len iov >? SIZE_MAX P) with false by lia.
    replace (total_len iov =? 0) with false by lia.
    rewrite Hscript, Hfirst. reflexivity.
  - unfold readv. rewrite Hscript, Hfirst. reflexivity.
  - intros pre v post k Hsplit Hk Hpast. cbn [mem].
    assert (Hzero : kos_copy P iov (staging (total_len iov) bytes) 0 (mem w)
                             (iov_base v + k) = 0).
    { subst iov.
      apply Forall_app in Hlens. destruct Hlens as [Hpre Hrest].
      inversion Hrest as [| ? ? Hv Hpost]; subst.
      pose proof (total_len_nonneg pre Hpre) as Hpn.
      pose proof (total_len_nonneg post Hpost) as Hqn.
      rewrite total_len_app in *.
      unfold total_len in Htotal, Hshort, Hcount, Hfirst, Hmax |- *.
      cbn [fold_right] in *. fold (total_len pre) in *.
      fold (total_len post) in *.
      rewrite kos_copy_app by (try assumption; lia).
      cbn [kos_copy Z.add].
      rewrite (to_size_small P (total_len pre + iov_len v)) by lia.
      apply (kos_copy_zero post _ (Z.of_nat (length bytes))); try lia.
      - intros i Hi. apply staging_zero.
        rewrite length_firstn. lia.
      - exact Hpost.
      - unfold memcpy.
        replace ((iov_base v <=? iov_base v + k)
                 && (iov_base v + k <? iov_base v + iov_len v))
          with true by lia.
        apply staging_zero. rewrite length_firstn. lia. }
    split; [exact Hzero |].
    intros Hfresh.
    assert (Hkept : scatter iov bytes (mem w) (iov_base v + k)
                    = mem w (iov_base v + k))
      by (apply scatter_frame; assumption).
    split; [exact Hkept |].
    intros Hnz. rewrite Hzero, Hkept. auto.
Qed.

End Shim.

(** ** The coalescer and shim theorems at concrete inputs *)

Lemma coalesce_respects_limit_witness :
  exists st rest,
    coalesce (unix_platform false false false true)
             [mkBuf 100 150; mkBuf 200 260] 70 = CoDone st rest
    /\ total_len (co_vec st) = co_size st
    /\ co_size st = 70.
Proof.
  destruct (coalesce_respects_limit (unix_platform false false false true)
              [mkBuf 100 150; mkBuf 200 260] 70 eq_refl) as [_ Hvalid].
  destruct Hvalid as (st & rest & Hrun & Hsum & Hmin & Hroom).
  - repeat constructor; cbn; first [discriminate | by_eval].
  - by_eval.
  - by_eval.
  - exists st, rest. split; [exact Hrun |]. split; [exact Hsum |].
    apply Hmin; [apply Hroom |]; by_eval.
Defined.


Lemma kos_readv_zero_fills_witness :
  exists wk wr,
    kos_readv (unix_platform false false false true) [mkIov 1000 4] 1
              (mkWorld (fun _ => 9) 0 [ReadOk [7; 7]] []) = Some (2, wk)
    /\ readv [mkIov 1000 4] 1
             (mkWorld (fun _ => 9) 0 [ReadOk [7; 7]] []) = Some (2, wr)
    /\ mem wk 1002 = 0
    /\ mem wr 1002 = 9.
Proof.
  destruct (kos_readv_zero_fills (unix_platform false false false true)
              [mkIov 1000 4] (mkWorld (fun _ => 9) 0 [ReadOk [7; 7]] [])
              [7; 7] [])
    as (wk & wr & Hk & Hr & Hmem).
  - repeat constructor. by_eval.
  - by_eval.
  - reflexivity.
  - by_eval.
  - exists wk, wr. split; [exact Hk |]. split; [exact Hr |].
    destruct (Hmem [] (mkIov 1000 4) [] 2 eq_refl) as [Hzero Hkeep];
      [by_eval | by_eval |].
    split; [exact Hzero |].
    apply Hkeep.
    intros pre' v' post' k' Hsplit Hk' Hlt.
    destruct pre' as [| a pre'].
    + injection Hsplit as <- _. unfold total_len in Hlt.
      cbn [fold_right iov_base iov_len length] in *. lia.
    + destruct pre'; discriminate Hsplit.
Defined.

Lemma full_chain_reports_eof_witness :
  exists r,
    ngx_readv_chain (unix_platform false false true true) (mkGlobals 0 false)
      (fresh_conn (-1) false 0) [mkBuf 1000 1000] 0
      (script [ReadOk [7; 7; 7]]) = Ret r
    /\ ret r = 0
    /\ eof (read (conn r)) = true
    /\ reads (world_after r) = [ReadOk [7; 7; 7]].
Proof.
  destruct (full_chain_reports_eof (unix_platform false false true true)
              (mkGlobals 0 false) (fresh_conn (-1) false 0)
              [mkBuf 1000 1000] 0 (script [ReadOk [7; 7; 7]]))
    as (st & rest & r & _ & _ & _ & _ & Hr & Hret & Heof & _ & Hw).
  - reflexivity.
  - discriminate.
  - repeat constructor. discriminate.
  - by_eval.
  - by_eval.
  - by_eval.
  - reflexivity.
  - exists r. split; [exact Hr |]. split; [exact Hret |].
    split; [exact Heof |]. rewrite Hw. reflexivity.
Defined.

(** ** Further properties of the dispatch *)

Section MoreDispatch.

Variable P : platform.
Variable G : ngx_globals.

Lemma flags_only_degrade_refl c : flags_only_degrade c c.
Proof. unfold flags_only_degrade. auto 10. Qed.

Lemma flags_only_degrade_trans c1 c2 c3 :
  flags_only_degrade c1 c2 -> flags_only_degrade c2 c3 ->
  flags_only_degrade c1 c3.
Proof.
  unfold flags_only_degrade.
  intros (H1 & H2 & H3 & H4 & H5 & H6 & H7) (K1 & K2 & K3 & K4 & K5 & K6 & K7).
  repeat split; auto; congruence.
Qed.

Lemma after_loop_degrades n c chain w :
  flags_only_degrade c (conn (after_loop P n c chain w)).
Proof.
  unfold after_loop, flags_only_degrade.
  destruct (n =? NGX_ERROR P); cbn; repeat split; auto; discriminate.
Qed.

Lemma on_data_tail_degrades n size c chain w :
  flags_only_degrade c (conn (on_data_tail P G n size c chain w)).
Proof.
  unfold on_data_tail, flags_only_degrade.
  split_ifs; cbn; repeat split; auto; discriminate.
Qed.

Lemma on_data_degrades n size c chain w r :
  on_data P G n size c chain w = Ret r -> flags_only_degrade c (conn r).
Proof.
  unfold on_data.
  destruct (NGX_HAVE_KQUEUE P && flag G (NGX_USE_KQUEUE_EVENT P)).
  - intros [= <-]. unfold flags_only_degrade.
    split_ifs; cbn; repeat split; auto; discriminate.
  - destruct (NGX_HAVE_FIONREAD P);
      [| intros [= <-]; apply on_data_tail_degrades].
    destruct (available (read c) >=? 0).
    + intros [= <-].
      eapply flags_only_degrade_trans; [| apply on_data_tail_degrades].
      unfold flags_only_degrade.
      split_ifs; cbn; repeat split; auto; discriminate.
    + destruct (n =? size);
        [| intros [= <-]; apply on_data_tail_degrades].
      destruct (nreads w) as [| [pending | e] tn]; [discriminate | |].
      * intros [= <-].
        eapply flags_only_degrade_trans; [| apply on_data_tail_degrades].
        unfold flags_only_degrade. cbn. repeat split; auto.
      * intros [= <-]. apply after_loop_degrades.
Qed.

Lemma read_loop_degrades fuel vec size c chain w r :
  read_loop P G fuel vec size c chain w = Ret r ->
  flags_only_degrade c (conn r).
Proof.
  revert w. induction fuel as [| fuel IH]; intros w; cbn [read_loop];
    [discriminate |].
  destruct (vectored_read P vec w) as [[n w1] |]; [| discriminate].
  destruct (n =? 0).
  - intros [= <-]. unfold on_eof, flags_only_degrade.
    split_ifs; cbn; repeat split; auto; discriminate.
  - destruct (n >? 0); [apply on_data_degrades |].
    destruct ((errno w1 =? NGX_EAGAIN P) || (errno w1 =? NGX_EINTR P)).
    + destruct (errno w1 =? NGX_EINTR P); [apply IH |].
      intros [= <-]. apply after_loop_degrades.
    + intros [= <-]. apply after_loop_degrades.
Qed.

(** X1. Whatever path the call returns on, it has not set ready, has not
    cleared eof or error, and has left pending_eof, kq_errno, the
    descriptor and the log level of the connection as they were. *)
Theorem call_only_degrades_flags (c : ngx_connection_t) (chain : ngx_chain_t)
        (limit : Z) (w : world) (r : result)
        (Hrun : ngx_readv_chain P G c chain limit w = Ret r) :
  flags_only_degrade c (conn r).
Proof.
  unfold ngx_readv_chain in Hrun.
  destruct (pre_read_gate P G c w) as [[[n c'] w'] |] eqn:Hgate.
  - injection Hrun as <-. cbn [conn].
    unfold pre_read_gate, kqueue_gate, epoll_gate in Hgate.
    cbn [kq_errno set_eof set_ready] in Hgate.
    unfold flags_only_degrade.
    destruct (NGX_HAVE_KQUEUE P && flag G (NGX_USE_KQUEUE_EVENT P));
      destruct (available (read c) =? 0);
      destruct (pending_eof (read c)) eqn:Hp;
      destruct (kq_errno (read c) =? 0);
      destruct (NGX_HAVE_EPOLLRDHUP P && flag G (NGX_USE_EPOLL_EVENT P));
      cbn in Hgate; try discriminate; injection Hgate as <- <- <-;
      cbn; repeat split; auto; discriminate.
  - destruct (coalesce P chain limit) as [st rest | |]; [| | discriminate].
    + exact (read_loop_degrades _ _ _ _ _ _ _ Hrun).
    + injection Hrun as <-. apply flags_only_degrade_refl.
Qed.

(** X2. When the vectored read returns 0 the call returns 0 with eof set
    and ready cleared; the hint becomes zero under kqueue and is left as it
    was otherwise. *)
Theorem zero_read_is_eof (c : ngx_connection_t) (chain : ngx_chain_t)
        (limit : Z) (w : world) (st : co_state) (rest : ngx_chain_t)
        (w1 : world)
        (Hgate : pre_read_gate P G c w = None)
        (Hco : coalesce P chain limit = CoDone st rest)
        (Hread : vectored_read P (co_vec st) w = Some (0, w1)) :
  exists r,
    ngx_readv_chain P G c chain limit w = Ret r
    /\ ret r = 0
    /\ eof (read (conn r)) = true
    /\ ready (read (conn r)) = false
    /\ available (read (conn r))
       = (if kqueue_active P G then 0 else available (read c))
    /\ world_after r = w1.
Proof.
  rewrite (ngx_readv_chain_issue _ _ _ _ _ _ _ _ Hgate Hco).
  cbn [read_loop]. rewrite Hread. cbn [Z.eqb].
  eexists. split; [reflexivity |]. unfold on_eof, kqueue_active.
  destruct (NGX_HAVE_KQUEUE P && flag G (NGX_USE_KQUEUE_EVENT P)); cbn; auto.
Qed.

(** X3. Under kqueue a successful read of n bytes returns n. Let t be
    h - n as stored into the int hint, which is h - n itself when that is
    within the range of int. The hint is left at t when t is positive and
    at zero otherwise, and ready is cleared exactly when t <= 0 and no EOF
    is pending. *)
Theorem kqueue_readiness_after_read (c : ngx_connection_t)
        (chain : ngx_chain_t) (limit : Z) (w : world) (st : co_state)
        (rest : ngx_chain_t) (n : Z) (w1 : world)
        (Hkq : kqueue_active P G = true)
        (Hgate : pre_read_gate P G c w = None)
        (Hco : coalesce P chain limit = CoDone st rest)
        (Hread : vectored_read P (co_vec st) w = Some (n, w1))
        (Hn : 0 < n) :
  exists r,
    ngx_readv_chain P G c chain limit w = Ret r
    /\ ret r = n
    /\ available (read (conn r)) = Z.max 0 (to_int (available (read c) - n))
    /\ ready (read (conn r))
       = (if (to_int (available (read c) - n) <=? 0)
             && negb (pending_eof (read c))
          then false else ready (read c))
    /\ (INT_MIN <= available (read c) - n <= INT_MAX ->
        available (read (conn r)) = Z.max 0 (available (read c) - n)
        /\ ready (read (conn r))
           = (if (available (read c) - n <=? 0)
                 && negb (pending_eof (read c))
              then false else ready (read c)))
    /\ world_after r = w1.
Proof.
  rewrite (ngx_readv_chain_issue _ _ _ _ _ _ _ _ Hgate Hco).
  rewrite (read_loop_data _ _ _ _ _ _ _ _ _ _ Hread Hn).
  unfold kqueue_active in Hkq. unfold on_data. rewrite Hkq.
  eexists. split; [reflexivity |].
  cbn [ret conn world_after read set_read available set_available
       pending_eof ready set_ready].
  assert (Hexact :
            available
              (if to_int (available (read c) - n) <=? 0
               then set_available 0
                      (if negb (pending_eof (read c))
                       then set_ready false
                              (set_available
                                 (to_int (available (read c) - n)) (read c))
                       else set_available
                              (to_int (available (read c) - n)) (read c))
               else set_available (to_int (available (read c) - n)) (read c))
            = Z.max 0 (to_int (available (read c) - n))
            /\ ready
                 (if to_int (available (read c) - n) <=? 0
                  then set_available 0
                         (if negb (pending_eof (read c))
                          then set_ready false
                                 (set_available
                                    (to_int (available (read c) - n))
                                    (read c))
                          else set_available
                                 (to_int (available (read c) - n)) (read c))
                  else set_available (to_int (available (read c) - n))
                                     (read c))
               = (if (to_int (available (read c) - n) <=? 0)
                     && negb (pending_eof (read c))
                  then false else ready (read c))).
  { destruct (to_int (available (read c) - n) <=? 0) eqn:Hout;
      destruct (pending_eof (read c)); cbn; split; (reflexivity || lia). }
  destruct Hexact as [Hav Hready].
  split; [reflexivity |]. split; [exact Hav |]. split; [exact Hready |].
  split; [| reflexivity].
  intros Hfit. rewrite Hav, Hready.
  rewrite (to_int_small _ Hfit). split; reflexivity.
Qed.

(** X4. With epoll and EPOLLRDHUP in use (no kqueue, no pending-byte
    query), a short read resets the hint to zero and clears ready unless an
    EOF is pending; in a build without FIONREAD a read that fills the
    request leaves the connection as it was. *)
Theorem epoll_short_read (c : ngx_connection_t) (chain : ngx_chain_t)
        (limit : Z) (w : world) (st : co_state) (rest : ngx_chain_t)
        (n : Z) (w1 : world)
        (Hkq : kqueue_active P G = false)
        (Hep : epoll_rdhup_active P G = true)
        (Hgate : pre_read_gate P G c w = None)
        (Hco : coalesce P chain limit = CoDone st rest)
        (Hread : vectored_read P (co_vec st) w = Some (n, w1))
        (Hn : 0 < n)
        (Hknown : 0 <= available (read c) \/ NGX_HAVE_FIONREAD P = false
                  \/ n <> co_size st) :
  exists r,
    ngx_readv_chain P G c chain limit w = Ret r
    /\ ret r = n
    /\ (n < co_size st ->
        available (read (conn r)) = 0
        /\ (pending_eof (read c) = false -> ready (read (conn r)) = false)
        /\ (pending_eof (read c) = true -> NGX_HAVE_FIONREAD P = false ->
            ready (read (conn r)) = ready (read c)))
    /\ (co_size st <= n -> NGX_HAVE_FIONREAD P = false -> conn r = c).
Proof.
  rewrite (ngx_readv_chain_issue _ _ _ _ _ _ _ _ Hgate Hco).
  rewrite (read_loop_data _ _ _ _ _ _ _ _ _ _ Hread Hn).
  unfold kqueue_active in Hkq. unfold epoll_rdhup_active in Hep.
  unfold on_data, on_data_tail. rewrite Hkq, Hep.
  cbn [pending_eof set_available set_ready].
  destruct (pending_eof (read c)) eqn:Hp; cbn [negb];
    destruct (NGX_HAVE_FIONREAD P) eqn:Hf.
  all: try destruct (available (read c) >=? 0) eqn:Ha.
  all: try replace (n =? co_size st) with false
      by (destruct Hknown as [H | [H | H]]; (discriminate || lia)).
  all: split_ifs; eexists; (split; [reflexivity |]); cbn in *;
    try rewrite Hp in *; cbn in *; try discriminate;
    (split; [reflexivity |]);
    (split; [intros; repeat split; intros; (congruence || lia)
            | intros; first [discriminate | reflexivity | lia]]).
Qed.

(** X5. Without kqueue, FIONREAD and epoll with EPOLLRDHUP, a successful
    read returns n and changes nothing but ready, which it clears exactly
    when the read was short and the event method is not greedy. *)
Theorem generic_short_read (c : ngx_connection_t) (chain : ngx_chain_t)
        (limit : Z) (w : world) (st : co_state) (rest : ngx_chain_t)
        (n : Z) (w1 : world)
        (Hkq : kqueue_active P G = false)
        (Hfion : NGX_HAVE_FIONREAD P = false)
        (Hep : epoll_rdhup_active P G = false)
        (Hgate : pre_read_gate P G c w = None)
        (Hco : coalesce P chain limit = CoDone st rest)
        (Hread : vectored_read P (co_vec st) w = Some (n, w1))
        (Hn : 0 < n) :
  ngx_readv_chain P G c chain limit w
  = Ret (mkResult n
           (if (n <? co_size st) && negb (flag G (NGX_USE_GREEDY_EVENT P))
            then set_read (set_ready false (read c)) c else c)
           chain w1).
Proof.
  rewrite (ngx_readv_chain_issue _ _ _ _ _ _ _ _ Hgate Hco).
  rewrite (read_loop_data _ _ _ _ _ _ _ _ _ _ Hread Hn).
  unfold kqueue_active in Hkq. unfold epoll_rdhup_active in Hep.
  unfold on_data, on_data_tail. rewrite Hkq, Hfion, Hep.
  destruct ((n <? co_size st) && negb (flag G (NGX_USE_GREEDY_EVENT P)));
    reflexivity.
Qed.

End MoreDispatch.

(** ** The pending-byte query, retries and the gate *)

Section QueryAndRetry.

Variable P : platform.
Variable G : ngx_globals.

(** X6. In a FIONREAD build without kqueue, a read that fills the request
    while the hint is unknown is followed by the pending-byte query. Its
    answer becomes the hint and the call returns n with the connection
    otherwise as it was. If the query fails, the bytes read are not
    reported: the call returns what ngx_connection_error returns for the
    query's errno, with ready cleared, and with error set when that is
    NGX_ERROR. *)
Theorem fionread_query_refreshes_hint (c : ngx_connection_t)
        (chain : ngx_chain_t) (limit : Z) (w : world) (st : co_state)
        (rest : ngx_chain_t) (n : Z) (w1 : world)
        (Hfion : NGX_HAVE_FIONREAD P = true)
        (Hkq : kqueue_active P G = false)
        (Hgate : pre_read_gate P G c w = None)
        (Hco : coalesce P chain limit = CoDone st rest)
        (Hread : vectored_read P (co_vec st) w = Some (n, w1))
        (Hn : 0 < n)
        (Hunknown : available (read c) < 0)
        (Hfull : n = co_size st) :
  (forall pending tn,
      nreads w1 = NreadOk pending :: tn ->
      ngx_readv_chain P G c chain limit w
      = Ret (mkResult n (set_read (set_available pending (read c)) c) chain
               (mkWorld (mem w1) (errno w1) (reads w1) tn)))
  /\ (forall e tn,
         nreads w1 = NreadErr e :: tn ->
         exists r,
           ngx_readv_chain P G c chain limit w = Ret r
           /\ ret r = ngx_connection_error P c e
           /\ ready (read (conn r)) = false
           /\ (ret r = NGX_ERROR P -> error (read (conn r)) = true)
           /\ world_after r = mkWorld (mem w1) e (reads w1) tn).
Proof.
  rewrite (ngx_readv_chain_issue _ _ _ _ _ _ _ _ Hgate Hco).
  rewrite (read_loop_data _ _ _ _ _ _ _ _ _ _ Hread Hn).
  unfold kqueue_active in Hkq. unfold on_data. rewrite Hkq, Hfion.
  replace (available (read c) >=? 0) with false by lia.
  replace (n =? co_size st) with true by lia.
  split.
  - intros pending tn ->. unfold on_data_tail.
    replace (n <? co_size st) with false by lia.
    cbn [andb]. split_ifs; reflexivity.
  - intros e tn ->. eexists. split; [reflexivity |].
    unfold after_loop. cbn [errno ret conn world_after read set_read].
    split; [reflexivity |].
    destruct (ngx_connection_error P c e =? NGX_ERROR P) eqn:Herr;
      cbn; repeat split; auto; lia.
Qed.

(** X7. A successful read makes no further system call and returns n,
    except in the one case of the pending-byte query: a FIONREAD build
    without kqueue, an unknown hint and a read that fills the request. *)
Theorem query_only_when_needed (c : ngx_connection_t) (chain : ngx_chain_t)
        (limit : Z) (w : world) (st : co_state) (rest : ngx_chain_t)
        (n : Z) (w1 : world)
        (Hgate : pre_read_gate P G c w = None)
        (Hco : coalesce P chain limit = CoDone st rest)
        (Hread : vectored_read P (co_vec st) w = Some (n, w1))
        (Hn : 0 < n)
        (Hcase : 0 <= available (read c) \/ n <> co_size st
                 \/ NGX_HAVE_FIONREAD P = false \/ kqueue_active P G = true) :
  exists r,
    ngx_readv_chain P G c chain limit w = Ret r
    /\ ret r = n
    /\ world_after r = w1.
Proof.
  rewrite (ngx_readv_chain_issue _ _ _ _ _ _ _ _ Hgate Hco).
  rewrite (read_loop_data _ _ _ _ _ _ _ _ _ _ Hread Hn).
  destruct (on_data_no_query P G n (co_size st) c chain w1 Hcase)
    as (r & Hr & Hret & _ & Hw).
  exists r. auto.
Qed.

(** A failing answer of the kernel comes back from the vectored read as
    -1 with the answer's errno, once the call reaches the kernel. *)
Lemma vectored_read_failure vec w e tr :
  reaches_kernel P vec = true ->
  reads w = ReadErr e :: tr ->
  vectored_read P vec w = Some (-1, mkWorld (mem w) e tr (nreads w)).
Proof.
  unfold reaches_kernel, vectored_read, kos_readv, readv.
  intros Hreach Hscript. rewrite Hscript.
  destruct (__KOS__ P); [| reflexivity]. cbn [negb orb] in Hreach.
  destruct (0 >=? Z.of_nat (length vec)); [discriminate |].
  destruct (kos_total P vec 0) as [t |]; [| discriminate].
  cbn [negb andb] in Hreach.
  destruct (to_size P t >? SIZE_MAX P); [discriminate |].
  destruct (t =? 0); [discriminate | reflexivity].
Qed.

(** X8. Any number of interrupted reads in a row is absorbed: the call
    behaves exactly as the call made once they are over, with NGX_EINTR
    left in errno. *)
Theorem interrupted_reads_are_retried (c : ngx_connection_t)
        (chain : ngx_chain_t) (limit : Z) (st : co_state)
        (rest : ngx_chain_t) (k : nat) (tr : list sys_read) (w : world)
        (Hgate : pre_read_gate P G c w = None)
        (Hco : coalesce P chain limit = CoDone st rest)
        (Hreach : reaches_kernel P (co_vec st) = true)
        (Hscript : reads w = repeat (ReadErr (NGX_EINTR P)) (S k) ++ tr) :
  ngx_readv_chain P G c chain limit w
  = ngx_readv_chain P G c chain limit
      (mkWorld (mem w) (NGX_EINTR P) tr (nreads w)).
Proof.
  revert w Hgate Hscript.
  induction k as [| k IH]; intros w Hgate Hscript;
    cbn [repeat app] in Hscript.
  - rewrite (ngx_readv_chain_issue _ _ _ _ _ _ _ _ Hgate Hco).
    rewrite (read_loop_failed _ _ _ _ _ _ _ _ _ _
               (vectored_read_failure _ _ _ _ Hreach Hscript) ltac:(lia)).
    cbn [errno]. rewrite Z.eqb_refl, orb_true_r.
    rewrite (ngx_readv_chain_issue P G c chain limit
               (mkWorld (mem w) (NGX_EINTR P) tr (nreads w)) st rest
               (pre_read_gate_world P G c w _ Hgate) Hco).
    rewrite Hscript. reflexivity.
  - set (w1 := mkWorld (mem w) (NGX_EINTR P)
                       (ReadErr (NGX_EINTR P)
                        :: repeat (ReadErr (NGX_EINTR P)) k ++ tr)
                       (nreads w)).
    assert (Hstep : ngx_readv_chain P G c chain limit w
                    = ngx_readv_chain P G c chain limit w1).
    { rewrite (ngx_readv_chain_issue _ _ _ _ _ _ _ _ Hgate Hco).
      rewrite (read_loop_failed _ _ _ _ _ _ _ _ _ _
                 (vectored_read_failure _ _ _ _ Hreach Hscript) ltac:(lia)).
      cbn [errno]. rewrite Z.eqb_refl, orb_true_r.
      rewrite (ngx_readv_chain_issue P G c chain limit w1 st rest
                 (pre_read_gate_world P G c w _ Hgate) Hco).
      rewrite Hscript. reflexivity. }
    rewrite Hstep.
    apply (IH w1 (pre_read_gate_world P G c w _ Hgate)). reflexivity.
Qed.

(** X9. The gate before the read lets the call through exactly when the
    hint is not zero, or when kqueue is not in use and either epoll is not
    in use or an EOF is pending. *)
Theorem gate_passes_iff (c : ngx_connection_t) (w : world) :
  pre_read_gate P G c w = None
  <-> (available (read c) <> 0
       \/ (kqueue_active P G = false
           /\ (NGX_HAVE_EPOLLRDHUP P && flag G (NGX_USE_EPOLL_EVENT P) = false
               \/ pending_eof (read c) = true))).
Proof.
  unfold pre_read_gate, kqueue_gate, epoll_gate, kqueue_active.
  cbn [kq_errno set_eof set_ready].
  destruct (NGX_HAVE_KQUEUE P && flag G (NGX_USE_KQUEUE_EVENT P));
    destruct (available (read c) =? 0) eqn:Hz;
    destruct (pending_eof (read c));
    destruct (kq_errno (read c) =? 0);
    destruct (NGX_HAVE_EPOLLRDHUP P && flag G (NGX_USE_EPOLL_EVENT P));
    cbn; split; intros H; try discriminate; try reflexivity;
    try (left; lia); try (right; auto; fail);
    destruct H as [H | [H1 [H2 | H2]]]; try discriminate; lia.
Qed.

(** X10. In a build with the shim, a call that gets past the gate with
    an empty chain, or with a negative limit, builds no entry; kos_readv
    rejects the empty array with EINVAL without reading, and the call
    returns what ngx_connection_error returns for EINVAL, with ready
    cleared (EINVAL being neither NGX_EAGAIN nor NGX_EINTR). *)
Theorem no_entry_is_rejected_by_shim (c : ngx_connection_t)
        (chain : ngx_chain_t) (limit : Z) (w : world)
        (Hkos : __KOS__ P = true)
        (Hgate : pre_read_gate P G c w = None)
        (Hnone : chain = [] \/ limit < 0)
        (Hagain : EINVAL P <> NGX_EAGAIN P)
        (Hintr : EINVAL P <> NGX_EINTR P) :
  exists r,
    ngx_readv_chain P G c chain limit w = Ret r
    /\ ret r = ngx_connection_error P c (EINVAL P)
    /\ ready (read (conn r)) = false
    /\ world_after r = set_errno (EINVAL P) w.
Proof.
  assert (Hco : coalesce P chain limit = CoDone (mkCo [] 0 NULL) chain).
  { destruct Hnone as [-> | Hneg]; [reflexivity |].
    destruct chain as [| b next]; [reflexivity |].
    unfold coalesce. cbn [coalesce_loop co_size].
    replace (negb (limit =? 0) && (0 >=? limit)) with true by lia.
    reflexivity. }
  rewrite (ngx_readv_chain_issue _ _ _ _ _ _ _ _ Hgate Hco).
  cbn [read_loop co_vec]. unfold vectored_read. rewrite Hkos.
  unfold kos_readv. cbn [length Z.of_nat Z.geb Z.compare].
  cbn [Z.eqb Z.gtb Z.compare errno set_errno].
  replace (EINVAL P =? NGX_EAGAIN P) with false by lia.
  replace (EINVAL P =? NGX_EINTR P) with false by lia. cbn [orb].
  eexists. split; [reflexivity |]. unfold after_loop.
  split_ifs; cbn; auto.
Qed.

End QueryAndRetry.

(** ** Further properties of the coalescing loop *)

Section MoreCoalescer.

Variable P : platform.

Lemma bump_last_length n vec vec' :
  bump_last P n vec = Some vec' -> length vec' = length vec.
Proof.
  destruct (snoc_cases vec) as [-> | (v & e & ->)]; [discriminate |].
  rewrite bump_last_snoc. intros [= <-]. rewrite !length_app. reflexivity.
Qed.

Lemma bump_last_none n vec : bump_last P n vec = None -> vec = [].
Proof.
  destruct (snoc_cases vec) as [-> | (v & e & ->)]; [reflexivity |].
  rewrite bump_last_snoc. discriminate.
Qed.

(** From a state within capacity the loop never fails in
    [ngx_array_push] and stays within capacity. *)
Lemma coalesce_loop_capacity chain limit st :
  Z.of_nat (length (co_vec st)) <= NGX_IOVS_PREALLOCATE P ->
  coalesce_loop P chain limit st <> CoError
  /\ forall st' rest,
      coalesce_loop P chain limit st = CoDone st' rest ->
      Z.of_nat (length (co_vec st')) <= NGX_IOVS_PREALLOCATE P.
Proof.
  revert st. induction chain as [| cl next IH]; intros st Hlen;
    cbn [coalesce_loop].
  - split; [discriminate |]. intros st' rest [= <- _]. exact Hlen.
  - destruct (negb (limit =? 0) && (co_size st >=? limit));
      [split; [discriminate | intros st' rest [= <- _]; exact Hlen] |].
    match goal with
    | |- context [bump_last P ?n (co_vec st)] => set (k := n)
    end.
    destruct (co_prev st =? buf_last cl).
    + destruct (bump_last P k (co_vec st)) as [vec' |] eqn:Hbump;
        [| split; [discriminate | intros ? ? [=]]].
      apply IH. cbn. rewrite (bump_last_length _ _ _ Hbump). exact Hlen.
    + destruct (Z.of_nat (length (co_vec st)) =? NGX_IOVS_PREALLOCATE P)
        eqn:Hfull;
        [split; [discriminate | intros st' rest [= <- _]; exact Hlen] |].
      unfold ngx_array_push.
      replace (Z.of_nat (length (co_vec st)) <? NGX_IOVS_PREALLOCATE P)
        with true by lia.
      apply IH. cbn. rewrite length_app. cbn [length]. lia.
Qed.

(** The loop dereferences a NULL [iov] only on entry, when the array is
    empty and the first buffer's [last] equals [prev]. *)
Lemma coalesce_loop_fault chain limit st :
  coalesce_loop P chain limit st = CoFault ->
  co_vec st = []
  /\ exists b next, chain = b :: next /\ co_prev st = buf_last b.
Proof.
  revert st. induction chain as [| cl next IH]; intros st;
    cbn [coalesce_loop]; [discriminate |].
  destruct (negb (limit =? 0) && (co_size st >=? limit)); [discriminate |].
  match goal with
  | |- context [bump_last P ?n (co_vec st)] => set (k := n)
  end.
  destruct (co_prev st =? buf_last cl) eqn:Hadj.
  - destruct (bump_last P k (co_vec st)) as [vec' |] eqn:Hbump.
    + intros Hf. destruct (IH _ Hf) as [Hnil _]. cbn in Hnil. subst vec'.
      destruct (bump_last_some _ _ _ _ Hbump) as (v & e & Hve).
      destruct v; discriminate Hve.
    + intros _. split; [exact (bump_last_none _ _ Hbump) |].
      exists cl, next. split; [reflexivity | lia].
  - destruct (Z.of_nat (length (co_vec st)) =? NGX_IOVS_PREALLOCATE P);
      [discriminate |].
    unfold ngx_array_push.
    destruct (Z.of_nat (length (co_vec st)) <? NGX_IOVS_PREALLOCATE P);
      [| discriminate].
    intros Hf. destruct (IH _ Hf) as [Hnil _]. cbn in Hnil.
    destruct (co_vec st); discriminate Hnil.
Qed.

(** X11. Whatever the chain and the limit, the loop never needs more
    entries than the array has: the allocation-failure return is never
    taken and the array never holds more than NGX_IOVS_PREALLOCATE
    entries. The only way the loop goes wrong is a first buffer whose last
    marker is NULL. *)
Theorem coalesce_stays_within_array (chain : ngx_chain_t) (limit : Z)
        (Hcap : 0 <= NGX_IOVS_PREALLOCATE P) :
  coalesce P chain limit <> CoError
  /\ (forall st rest,
         coalesce P chain limit = CoDone st rest ->
         Z.of_nat (length (co_vec st)) <= NGX_IOVS_PREALLOCATE P)
  /\ (coalesce P chain limit = CoFault ->
      exists b next, chain = b :: next /\ buf_last b = NULL).
Proof.
  unfold coalesce.
  destruct (coalesce_loop_capacity chain limit (mkCo [] 0 NULL)) as [He Hd];
    [cbn; lia |].
  split; [exact He |]. split; [exact Hd |].
  intros Hf. destruct (coalesce_loop_fault _ _ _ Hf) as (_ & b & next & -> & Hb).
  exists b, next. split; [reflexivity | symmetry; exact Hb].
Qed.

(** What the loop maintains without a limit. *)
Lemma coalesce_loop_unlimited chain st :
  Forall buf_ok chain ->
  0 <= co_size st ->
  total_len (co_vec st) = co_size st ->
  Forall (fun v => 0 <= iov_len v) (co_vec st) ->
  (co_vec st = [] -> co_prev st = NULL) ->
  co_size st + total_free chain <= SIZE_MAX P ->
  Z.of_nat (length (co_vec st) + entries_after (co_prev st) chain)
  <= NGX_IOVS_PREALLOCATE P ->
  exists st',
    coalesce_loop P chain 0 st = CoDone st' []
    /\ co_size st' = co_size st + total_free chain
    /\ total_len (co_vec st') = co_size st'
    /\ length (co_vec st')
       = (length (co_vec st) + entries_after (co_prev st) chain)%nat.
Proof.
  intros Hok. revert st.
  induction Hok as [| cl next [Hnull Hle] Hok IH];
    intros st Hsize Hsum Hpos Hprev Hmax Hroom.
  - exists st. cbn. repeat split; auto; lia.
  - pose proof (total_free_nonneg next Hok) as Hfree.
    cbn [coalesce_loop total_free fold_right entries_after] in *.
    fold (total_free next) in *. unfold free_space in *.
    change (negb (0 =? 0)) with false. cbn [andb].
    destruct (co_prev st =? buf_last cl) eqn:Hadj.
    + destruct (snoc_cases (co_vec st)) as [Hnil | (v & e & Hvec)];
        [specialize (Hprev Hnil); unfold NULL in *; lia |].
      rewrite Hvec in *. rewrite bump_last_snoc.
      rewrite total_len_snoc in Hsum.
      apply Forall_app in Hpos. destruct Hpos as [Hv He].
      inversion He as [| ? ? He' _]; subst.
      pose proof (total_len_nonneg v Hv) as Hvn.
      rewrite to_size_small by lia.
      destruct (IH (mkCo (v ++ [mkIov (iov_base e)
                                      (iov_len e + (buf_end cl - buf_last cl))])
                         (co_size st + (buf_end cl - buf_last cl))
                         (buf_end cl)))
        as (st' & Hrun & Hs & Ht & Hl); cbn [co_vec co_size co_prev].
      * lia.
      * rewrite total_len_snoc. cbn. lia.
      * apply Forall_app. split; [exact Hv |].
        constructor; [cbn; lia | constructor].
      * intros Habs. destruct v; discriminate Habs.
      * lia.
      * rewrite length_app in *. cbn [length plus] in *. lia.
      * exists st'. split; [exact Hrun |]. cbn in Hs, Hl.
        split; [lia |]. split; [exact Ht |].
        rewrite Hl, !length_app. cbn [length]. lia.
    + assert (Hlt : Z.of_nat (length (co_vec st)) < NGX_IOVS_PREALLOCATE P)
        by lia.
      replace (Z.of_nat (length (co_vec st)) =? NGX_IOVS_PREALLOCATE P)
        with false by lia.
      unfold ngx_array_push.
      replace (Z.of_nat (length (co_vec st)) <? NGX_IOVS_PREALLOCATE P)
        with true by lia.
      rewrite to_size_small by lia.
      destruct (IH (mkCo (co_vec st
                          ++ [mkIov (buf_last cl) (buf_end cl - buf_last cl)])
                         (co_size st + (buf_end cl - buf_last cl))
                         (buf_end cl)))
        as (st' & Hrun & Hs & Ht & Hl); cbn [co_vec co_size co_prev].
      * lia.
      * rewrite total_len_snoc. cbn. lia.
      * apply Forall_app. split; [exact Hpos |].
        constructor; [cbn; lia | constructor].
      * intros Habs. destruct (co_vec st); discriminate Habs.
      * lia.
      * rewrite length_app. cbn [length]. lia.
      * exists st'. split; [exact Hrun |]. cbn in Hs, Hl.
        split; [lia |]. split; [exact Ht |].
        rewrite Hl, length_app. cbn [length]. lia.
Qed.

(** X12. Without a limit, on a chain of valid buffers whose free space
    fits size_t and whose runs of adjacent buffers fit the array, the loop
    gathers the whole chain: nothing is left over, the size is the chain's
    free space and the entry lengths add up to it. *)
Theorem unlimited_gathers_whole_chain (chain : ngx_chain_t)
        (Hok : Forall buf_ok chain)
        (Hmax : total_free chain <= SIZE_MAX P)
        (Hroom : Z.of_nat (entries_after NULL chain) <= NGX_IOVS_PREALLOCATE P) :
  exists st,
    coalesce P chain 0 = CoDone st []
    /\ co_size st = total_free chain
    /\ total_len (co_vec st) = total_free chain.
Proof.
  destruct (coalesce_loop_unlimited chain (mkCo [] 0 NULL) Hok)
    as (st & Hrun & Hs & Ht & _); cbn; try lia; auto.
  exists st. split; [exact Hrun |]. cbn in Hs. split; lia.
Qed.

(** X13. Under the same conditions the number of entries is the number
    of buffers whose last marker is not the end marker of the buffer before
    them, the first buffer included. *)
Theorem entry_count_is_run_count (chain : ngx_chain_t)
        (Hok : Forall buf_ok chain)
        (Hmax : total_free chain <= SIZE_MAX P)
        (Hroom : Z.of_nat (entries_after NULL chain) <= NGX_IOVS_PREALLOCATE P) :
  exists st,
    coalesce P chain 0 = CoDone st []
    /\ length (co_vec st) = entries_after NULL chain.
Proof.
  destruct (coalesce_loop_unlimited chain (mkCo [] 0 NULL) Hok)
    as (st & Hrun & _ & _ & Hl); cbn; try lia; auto.
  exists st. split; [exact Hrun | exact Hl].
Qed.

End MoreCoalescer.

(** ** What the call writes *)

Section Writes.

Variable P : platform.
Variable G : ngx_globals.

Lemma kos_copy_frame iov buffer off m a :
  ~ in_regions iov a -> kos_copy P iov buffer off m a = m a.
Proof.
  unfold in_regions. revert off m.
  induction iov as [| v iov IH]; intros off m Hout; [reflexivity |].
  cbn [kos_copy]. rewrite IH.
  - unfold memcpy.
    destruct ((iov_base v <=? a) && (a <? iov_base v + iov_len v)) eqn:Hin;
      [| reflexivity].
    exfalso. apply Hout. left. lia.
  - intros Hin. apply Hout. right. exact Hin.
Qed.

Lemma scatter_outside iov data m a :
  ~ in_regions iov a -> scatter iov data m a = m a.
Proof.
  unfold in_regions. revert data m.
  induction iov as [| v iov IH]; intros data m Hout; [reflexivity |].
  cbn [scatter]. rewrite IH.
  - unfold store_bytes.
    destruct ((iov_base v <=? a)
              && (a <? iov_base v
                       + Z.of_nat (length (firstn (Z.to_nat (iov_len v)) data))))
      eqn:Hin; [| reflexivity].
    exfalso. apply Hout. left. rewrite length_firstn in Hin.
    apply andb_prop in Hin. destruct Hin as [Hlo Hhi].
    apply Z.leb_le in Hlo. apply Z.ltb_lt in Hhi. lia.
  - intros Hin. apply Hout. right. exact Hin.
Qed.

(** X14. kos_readv changes memory only inside the regions it was given
    and not at all when it fails; it never touches the answers to the
    pending-byte query, and takes at most one answer to read. *)
Theorem kos_readv_writes_only_regions (iov : list iovec) (iovCount : Z)
        (w w' : world) (n : Z)
        (Hrun : kos_readv P iov iovCount w = Some (n, w')) :
  (forall a, ~ in_regions iov a -> mem w' a = mem w a)
  /\ (n < 0 -> forall a, mem w' a = mem w a)
  /\ nreads w' = nreads w
  /\ (reads w' = reads w \/ exists ans, reads w = ans :: reads w').
Proof.
  unfold kos_readv in Hrun.
  destruct (0 >=? iovCount);
    [injection Hrun as <- <-; cbn; auto |].
  destruct (kos_total P iov 0) as [t |];
    [| injection Hrun as <- <-; cbn; auto].
  destruct (to_size P t >? SIZE_MAX P);
    [injection Hrun as <- <-; cbn; auto |].
  destruct (t =? 0); [injection Hrun as <- <-; cbn; auto |].
  destruct (reads w) as [| [bytes | e] tr] eqn:Hscript; [discriminate | |];
    injection Hrun as <- <-; cbn [mem nreads reads].
  - split; [intros a Ha; apply kos_copy_frame; exact Ha |].
    split; [lia |]. split; [reflexivity |]. right. eauto.
  - split; [reflexivity |]. split; [reflexivity |].
    split; [reflexivity |]. right. eauto.
Qed.

Lemma vectored_read_frame vec w n w' a :
  vectored_read P vec w = Some (n, w') ->
  ~ in_regions vec a -> mem w' a = mem w a.
Proof.
  unfold vectored_read. destruct (__KOS__ P).
  - unfold kos_readv. intros Hrun Ha.
    destruct (0 >=? Z.of_nat (length vec));
      [injection Hrun as _ <-; reflexivity |].
    destruct (kos_total P vec 0) as [t |];
      [| injection Hrun as _ <-; reflexivity].
    destruct (to_size P t >? SIZE_MAX P);
      [injection Hrun as _ <-; reflexivity |].
    destruct (t =? 0); [injection Hrun as _ <-; reflexivity |].
    destruct (reads w) as [| [bytes | e] tr]; [discriminate | |];
      injection Hrun as _ <-; cbn [mem];
      [apply kos_copy_frame; exact Ha | reflexivity].
  - unfold readv. destruct (reads w) as [| [bytes | e] tr]; [discriminate | |];
      intros [= <- <-] Ha; cbn [mem]; [apply scatter_outside; exact Ha |].
    reflexivity.
Qed.

End Writes.

(** ** The regions gathered lie in the chain's free space *)

Section Regions.

Variable P : platform.
Variable G : ngx_globals.

(** Every region the loop builds satisfies what holds of the free regions
    of the buffers, as long as the regions it started from did and the
    last of them ends at [prev] (or the limit is already reached). *)
Lemma coalesce_loop_regions (Q : Z -> Prop) chain limit st st' rest :
  Forall buf_ok chain ->
  0 <= limit ->
  (forall b a, In b chain -> buf_last b <= a < buf_end b -> Q a) ->
  Forall (fun v => 0 <= iov_len v) (co_vec st) ->
  Forall (fun v => forall a, iov_base v <= a < iov_base v + iov_len v -> Q a)
         (co_vec st) ->
  (forall v e, co_vec st = v ++ [e] ->
               iov_base e + iov_len e = co_prev st
               \/ (limit <> 0 /\ limit <= co_size st)) ->
  total_len (co_vec st) + total_free chain <= SIZE_MAX P ->
  coalesce_loop P chain limit st = CoDone st' rest ->
  Forall (fun v => forall a, iov_base v <= a < iov_base v + iov_len v -> Q a)
         (co_vec st').
Proof.
  intros Hok Hlim. revert st.
  induction Hok as [| cl next [Hnull Hle] Hok IH];
    intros st Hbuf Hpos Hreg Hend Hmax; cbn [coalesce_loop].
  - intros [= <- _]. exact Hreg.
  - pose proof (total_free_nonneg next Hok) as Hfree.
    cbn [total_free fold_right] in Hmax. fold (total_free next) in Hmax.
    unfold free_space in Hmax.
    destruct (negb (limit =? 0) && (co_size st >=? limit)) eqn:Hfull;
      [intros [= <- _]; exact Hreg |].
    set (n := if negb (limit =? 0)
                 && (co_size st + (buf_end cl - buf_last cl) >? limit)
              then limit - co_size st else buf_end cl - buf_last cl).
    assert (Hn : 0 <= n <= buf_end cl - buf_last cl)
      by (subst n; split_ifs; lia).
    assert (Hcut : n = buf_end cl - buf_last cl
                   \/ (limit <> 0 /\ limit <= co_size st + n))
      by (subst n; split_ifs; lia).
    assert (Hnext : forall b a, In b next ->
                                buf_last b <= a < buf_end b -> Q a)
      by (intros b a Hb; apply Hbuf; right; exact Hb).
    assert (Hhere : forall a, buf_last cl <= a < buf_last cl + n -> Q a)
      by (intros a Ha; apply (Hbuf cl); [left; reflexivity | lia]).
    destruct (co_prev st =? buf_last cl) eqn:Hadj.
    + destruct (snoc_cases (co_vec st)) as [Hnil | (v & e & Hvec)];
        [rewrite Hnil; discriminate |].
      rewrite Hvec in *. rewrite bump_last_snoc.
      rewrite total_len_snoc in Hmax.
      apply Forall_app in Hpos. destruct Hpos as [Hv He].
      inversion He as [| ? ? He' _]; subst.
      apply Forall_app in Hreg. destruct Hreg as [Hrv Hre].
      inversion Hre as [| ? ? Hre' _]; subst.
      pose proof (total_len_nonneg v Hv) as Hvn.
      destruct (Hend v e eq_refl) as [Hends | Hover]; [| lia].
      rewrite to_size_small by lia.
      apply IH; cbn [co_vec co_size co_prev].
      * exact Hnext.
      * apply Forall_app. split; [exact Hv |].
        constructor; [cbn; lia | constructor].
      * apply Forall_app. split; [exact Hrv |].
        constructor; [| constructor]. cbn [iov_base iov_len].
        intros a Ha.
        destruct (Z.lt_ge_cases a (iov_base e + iov_len e)) as [Hold | Hnew];
          [apply Hre'; lia | apply Hhere; lia].
      * intros v0 e0 Heq. apply app_inj_tail in Heq.
        destruct Heq as [_ <-]. cbn [iov_base iov_len]. lia.
      * rewrite total_len_snoc. cbn [iov_len]. lia.
    + destruct (Z.of_nat (length (co_vec st)) =? NGX_IOVS_PREALLOCATE P);
        [intros [= <- _]; exact Hreg |].
      unfold ngx_array_push.
      destruct (Z.of_nat (length (co_vec st)) <? NGX_IOVS_PREALLOCATE P);
        [| discriminate].
      pose proof (total_len_nonneg _ Hpos) as Hvn.
      rewrite to_size_small by lia.
      apply IH; cbn [co_vec co_size co_prev].
      * exact Hnext.
      * apply Forall_app. split; [exact Hpos |].
        constructor; [cbn; lia | constructor].
      * apply Forall_app. split; [exact Hreg |].
        constructor; [| constructor]. cbn [iov_base iov_len]. exact Hhere.
      * intros v0 e0 Heq. apply app_inj_tail in Heq.
        destruct Heq as [_ <-]. cbn [iov_base iov_len]. lia.
      * rewrite total_len_snoc. cbn [iov_len]. lia.
Qed.

(** X15. On a chain of valid buffers whose free space fits size_t, every
    region the loop hands to the read lies inside the free regions of the
    chain's buffers. *)
Theorem regions_lie_in_free_space (chain : ngx_chain_t) (limit : Z)
        (st : co_state) (rest : ngx_chain_t) (a : Z)
        (Hok : Forall buf_ok chain)
        (Hlimit : 0 <= limit)
        (Hmax : total_free chain <= SIZE_MAX P)
        (Hco : coalesce P chain limit = CoDone st rest)
        (Hin : in_regions (co_vec st) a) :
  in_free chain a.
Proof.
  assert (Hall : Forall (fun v => forall x,
                             iov_base v <= x < iov_base v + iov_len v ->
                             in_free chain x) (co_vec st)).
  { apply (coalesce_loop_regions (in_free chain) chain limit
                                 (mkCo [] 0 NULL) st rest Hok Hlimit);
      cbn [co_vec co_size co_prev].
    - intros b x Hb Hx. apply Exists_exists. exists b. auto.
    - constructor.
    - constructor.
    - intros v e Heq. destruct v; discriminate Heq.
    - unfold total_len. cbn. exact Hmax.
    - exact Hco. }
  unfold in_regions in Hin. apply Exists_exists in Hin.
  destruct Hin as (v & Hv & Hx).
  rewrite Forall_forall in Hall. exact (Hall v Hv a Hx).
Qed.

Lemma pre_read_gate_mem c w n c' w' :
  pre_read_gate P G c w = Some (n, c', w') -> mem w' = mem w.
Proof.
  unfold pre_read_gate, kqueue_gate, epoll_gate.
  cbn [kq_errno set_eof set_ready].
  destruct (NGX_HAVE_KQUEUE P && flag G (NGX_USE_KQUEUE_EVENT P));
    destruct (available (read c) =? 0);
    destruct (pending_eof (read c));
    destruct (kq_errno (read c) =? 0);
    destruct (NGX_HAVE_EPOLLRDHUP P && flag G (NGX_USE_EPOLL_EVENT P));
    cbn; intros H; try discriminate H; injection H as _ _ <-; reflexivity.
Qed.

Lemma on_data_mem n size c chain w r :
  on_data P G n size c chain w = Ret r -> mem (world_after r) = mem w.
Proof.
  unfold on_data, on_data_tail, after_loop.
  destruct (nreads w) as [| [pending | e] tn];
    split_ifs; intros [= <-]; reflexivity.
Qed.

Lemma read_loop_mem fuel vec size c chain w r a :
  read_loop P G fuel vec size c chain w = Ret r ->
  ~ in_regions vec a -> mem (world_after r) a = mem w a.
Proof.
  intros Hrun Hout. revert w Hrun.
  induction fuel as [| fuel IH]; intros w; cbn [read_loop]; [discriminate |].
  destruct (vectored_read P vec w) as [[n w1] |] eqn:Hread; [| discriminate].
  pose proof (vectored_read_frame P vec w n w1 a Hread Hout) as Hmem.
  destruct (n =? 0); [intros [= <-]; exact Hmem |].
  destruct (n >? 0).
  - intros Hd. rewrite (on_data_mem _ _ _ _ _ _ Hd). exact Hmem.
  - destruct ((errno w1 =? NGX_EAGAIN P) || (errno w1 =? NGX_EINTR P)).
    + destruct (errno w1 =? NGX_EINTR P).
      * intros Hr. rewrite (IH _ Hr). exact Hmem.
      * intros [= <-]. exact Hmem.
    + intros [= <-]. exact Hmem.
Qed.

(** X16. On a chain of valid buffers whose free space fits size_t, a call
    that returns has left every byte outside the free regions of the
    chain's buffers as it was, whatever the kernel answered. *)
Theorem call_writes_only_free_space (c : ngx_connection_t)
        (chain : ngx_chain_t) (limit : Z) (w : world) (r : result) (a : Z)
        (Hok : Forall buf_ok chain)
        (Hlimit : 0 <= limit)
        (Hmax : total_free chain <= SIZE_MAX P)
        (Hrun : ngx_readv_chain P G c chain limit w = Ret r)
        (Hout : ~ in_free chain a) :
  mem (world_after r) a = mem w a.
Proof.
  unfold ngx_readv_chain in Hrun.
  destruct (pre_read_gate P G c w) as [[[n c'] w'] |] eqn:Hgate.
  - injection Hrun as <-. cbn [world_after].
    rewrite (pre_read_gate_mem _ _ _ _ _ Hgate). reflexivity.
  - destruct (coalesce P chain limit) as [st rest | |] eqn:Hco;
      [| injection Hrun as <-; reflexivity | discriminate].
    apply (read_loop_mem _ _ _ _ _ _ _ _ Hrun).
    intros Hin. apply Hout.
    assert (Hall : Forall (fun v => forall x,
                               iov_base v <= x < iov_base v + iov_len v ->
                               in_free chain x) (co_vec st)).
    { apply (coalesce_loop_regions (in_free chain) chain limit
                                   (mkCo [] 0 NULL) st rest Hok Hlimit);
        cbn [co_vec co_size co_prev].
      - intros b x Hb Hx. apply Exists_exists. exists b. auto.
      - constructor.
      - constructor.
      - intros v e Heq. destruct v; discriminate Heq.
      - unfold total_len. cbn. exact Hmax.
      - exact Hco. }
    unfold in_regions in Hin. apply Exists_exists in Hin.
    destruct Hin as (v & Hv & Hx).
    rewrite Forall_forall in Hall. exact (Hall v Hv a Hx).
Qed.

End Regions.

(** ** Further properties of the shim *)

Section MoreShim.

Variable P : platform.

(** The shim's call in the normal case: valid lengths, a total within
    ssize_t that is not zero, and an answer with bytes. *)
Lemma kos_readv_data iov w bytes tr :
  Forall (fun v => 0 <= iov_len v) iov ->
  0 < total_len iov <= SIZE_MAX P / 2 ->
  reads w = ReadOk bytes :: tr ->
  kos_readv P iov (Z.of_nat (length iov)) w
  = Some (Z.of_nat (length (firstn (Z.to_nat (total_len iov)) bytes)),
          mkWorld (kos_copy P iov (staging (total_len iov) bytes) 0 (mem w))
                  (errno w) tr (nreads w)).
Proof.
  intros Hlens Htotal Hscript.
  assert (Hmax : 0 <= total_len iov <= SIZE_MAX P)
    by (apply half_range; lia).
  unfold kos_readv.
  assert (Hpos : 0 < Z.of_nat (length iov)).
  { destruct iov; [| cbn [length]; lia].
    unfold total_len in Htotal. cbn [fold_right] in Htotal. lia. }
  replace (0 >=? Z.of_nat (length iov)) with false by lia.
  rewrite (kos_total_sum P iov 0 Hlens) by lia. cbn [Z.add].
  rewrite (to_size_small P (total_len iov)) by lia.
  replace (total_len iov >? SIZE_MAX P) with false by lia.
  replace (total_len iov =? 0) with false by lia.
  rewrite Hscript. reflexivity.
Qed.

(** A byte of a region ends up as the staging buffer has it at the
    byte's position in region order, when no later region covers it. *)
Lemma kos_copy_position pre v post buffer m k :
  Forall (fun v => 0 <= iov_len v) pre ->
  total_len pre <= SIZE_MAX P ->
  0 <= k < iov_len v ->
  ~ in_regions post (iov_base v + k) ->
  kos_copy P (pre ++ v :: post) buffer 0 m (iov_base v + k)
  = nth (Z.to_nat (total_len pre + k)) buffer 0.
Proof.
  intros Hpre Hmax Hk Hlater.
  pose proof (total_len_nonneg pre Hpre) as Hpn.
  rewrite kos_copy_app by (try assumption; lia).
  cbn [kos_copy Z.add].
  rewrite kos_copy_frame by exact Hlater.
  unfold memcpy.
  replace ((iov_base v <=? iov_base v + k)
           && (iov_base v + k <? iov_base v + iov_len v)) with true by lia.
  f_equal. lia.
Qed.

(** X17. The bytes the shim reports as read are in place: with valid
    lengths and a total within ssize_t, the byte at position g in the order
    of the regions, g below the count returned, holds the g-th byte of the
    kernel's answer, provided no later region covers its address. *)
Theorem kos_readv_delivers_in_order (pre : list iovec) (v : iovec)
        (post : list iovec) (w : world) (bytes : list Z)
        (tr : list sys_read) (k : Z)
        (Hlens : Forall (fun v => 0 <= iov_len v) (pre ++ v :: post))
        (Htotal : total_len (pre ++ v :: post) <= SIZE_MAX P / 2)
        (Hscript : reads w = ReadOk bytes :: tr)
        (Hk : 0 <= k < iov_len v)
        (Hread : total_len pre + k < Z.of_nat (length bytes))
        (Hlater : ~ in_regions post (iov_base v + k)) :
  exists n wk,
    kos_readv P (pre ++ v :: post) (Z.of_nat (length (pre ++ v :: post))) w
    = Some (n, wk)
    /\ total_len pre + k < n
    /\ mem wk (iov_base v + k) = nth (Z.to_nat (total_len pre + k)) bytes 0.
Proof.
  pose proof Hlens as Hall.
  apply Forall_app in Hlens. destruct Hlens as [Hpre Hrest].
  inversion Hrest as [| ? ? Hv Hpost]; subst.
  pose proof (total_len_nonneg pre Hpre) as Hpn.
  pose proof (total_len_nonneg post Hpost) as Hqn.
  assert (Hsum : total_len (pre ++ v :: post)
                 = total_len pre + (iov_len v + total_len post)).
  { rewrite total_len_app. unfold total_len. cbn [fold_right]. reflexivity. }
  assert (Hmax : 0 <= total_len (pre ++ v :: post) <= SIZE_MAX P)
    by (apply half_range; lia).
  rewrite (kos_readv_data _ w bytes tr Hall) by (try assumption; lia).
  do 2 eexists. split; [reflexivity |]. cbn [mem].
  rewrite length_firstn. split; [lia |].
  rewrite kos_copy_position by (try assumption; lia).
  unfold staging. rewrite app_nth1 by (rewrite length_firstn; lia).
  rewrite nth_firstn.
  replace (Z.to_nat (total_len pre + k)
           <? Z.to_nat (total_len (pre ++ v :: post)))%nat
    with true; [reflexivity |].
  symmetry. apply Nat.ltb_lt. lia.
Qed.

(** X18. When the kernel answers the shim's read with no bytes, the
    shim returns 0 and has overwritten every byte of every region with
    zero. *)
Theorem kos_readv_eof_zero_fills (iov : list iovec) (w : world)
        (tr : list sys_read) (a : Z)
        (Hlens : Forall (fun v => 0 <= iov_len v) iov)
        (Htotal : 0 < total_len iov <= SIZE_MAX P / 2)
        (Hscript : reads w = ReadOk [] :: tr)
        (Hin : in_regions iov a) :
  exists wk,
    kos_readv P iov (Z.of_nat (length iov)) w = Some (0, wk)
    /\ mem wk a = 0.
Proof.
  rewrite (kos_readv_data iov w [] tr Hlens Htotal Hscript).
  rewrite firstn_nil. cbn [length Z.of_nat].
  eexists. split; [reflexivity |]. cbn [mem].
  unfold in_regions in Hin. apply Exists_exists in Hin.
  destruct Hin as (v & Hv & Ha).
  destruct (in_split _ _ Hv) as (pre & post & ->).
  apply Forall_app in Hlens. destruct Hlens as [Hpre Hrest].
  inversion Hrest as [| ? ? Hv0 Hpost]; subst.
  pose proof (total_len_nonneg pre Hpre) as Hpn.
  pose proof (total_len_nonneg post Hpost) as Hqn.
  assert (Hsum : total_len (pre ++ v :: post)
                 = total_len pre + (iov_len v + total_len post)).
  { rewrite total_len_app. unfold total_len. cbn [fold_right]. reflexivity. }
  assert (Hmax : 0 <= total_len (pre ++ v :: post) <= SIZE_MAX P)
    by (apply half_range; lia).
  rewrite kos_copy_app by (try assumption; lia).
  cbn [kos_copy Z.add].
  rewrite (to_size_small P (total_len pre + iov_len v)) by lia.
  apply (kos_copy_zero P post _ 0); try lia.
  - intros i Hi. apply staging_zero. rewrite firstn_nil. cbn [length]. lia.
  - exact Hpost.
  - unfold memcpy.
    replace ((iov_base v <=? a) && (a <? iov_base v + iov_len v))
      with true by lia.
    apply staging_zero. rewrite firstn_nil. cbn [length]. lia.
Qed.

(** With enough data the shim's copies and [readv]'s stores are the same
    writes. *)
Lemma kos_copy_scatter iov buffer off m1 m2 :
  Forall (fun v => 0 <= iov_len v) iov ->
  0 <= off ->
  off + total_len iov <= Z.of_nat (length buffer) ->
  off + total_len iov <= SIZE_MAX P ->
  (forall x, m1 x = m2 x) ->
  forall a,
    kos_copy P iov buffer off m1 a
    = scatter iov (skipn (Z.to_nat off) buffer) m2 a.
Proof.
  intros Hlens. revert off m1 m2.
  induction Hlens as [| v iov Hv Hlens IH];
    intros off m1 m2 Hoff Hlen Hmax Hm a; [apply Hm |].
  pose proof (total_len_nonneg iov Hlens) as Hrest.
  unfold total_len in *. cbn [kos_copy scatter fold_right] in *.
  rewrite (to_size_small P (off + iov_len v)) by lia.
  rewrite skipn_skipn.
  replace (Z.to_nat (iov_len v) + Z.to_nat off)%nat
    with (Z.to_nat (off + iov_len v)) by lia.
  apply IH; try lia.
  intros x. unfold memcpy, store_bytes.
  rewrite length_firstn, length_skipn.
  replace (Z.of_nat (Init.Nat.min (Z.to_nat (iov_len v))
                                  (length buffer - Z.to_nat off)))
    with (iov_len v) by lia.
  destruct ((iov_base v <=? x) && (x <? iov_base v + iov_len v)) eqn:Hin;
    [| apply Hm].
  rewrite nth_firstn, nth_skipn.
  replace (Z.to_nat (x - iov_base v) <? Z.to_nat (iov_len v))%nat with true
    by (symmetry; apply Nat.ltb_lt; lia).
  f_equal. lia.
Qed.

(** X19. When the kernel has at least as many bytes as the regions hold,
    the shim is a vectored read: kos_readv and readv return the same count
    and leave the same byte at every address. *)
Theorem kos_readv_full_read_is_readv (iov : list iovec) (w : world)
        (bytes : list Z) (tr : list sys_read)
        (Hlens : Forall (fun v => 0 <= iov_len v) iov)
        (Htotal : 0 < total_len iov <= SIZE_MAX P / 2)
        (Hscript : reads w = ReadOk bytes :: tr)
        (Hfull : total_len iov <= Z.of_nat (length bytes)) :
  exists wk wr,
    kos_readv P iov (Z.of_nat (length iov)) w = Some (total_len iov, wk)
    /\ readv iov (Z.of_nat (length iov)) w = Some (total_len iov, wr)
    /\ (forall a, mem wk a = mem wr a)
    /\ errno wk = errno wr /\ reads wk = reads wr /\ nreads wk = nreads wr.
Proof.
  assert (Hmax : 0 <= total_len iov <= SIZE_MAX P)
    by (apply half_range; lia).
  assert (Hgot : Z.of_nat (length (firstn (Z.to_nat (total_len iov)) bytes))
                 = total_len iov)
    by (rewrite length_firstn; lia).
  rewrite (kos_readv_data iov w bytes tr Hlens Htotal Hscript).
  unfold readv. rewrite Hscript, Hgot.
  do 2 eexists. split; [reflexivity |]. split; [reflexivity |].
  cbn [mem errno reads nreads]. split; [| auto].
  intros a.
  rewrite (kos_copy_scatter iov _ 0 (mem w) (mem w) Hlens); try lia; auto.
  - cbn [Z.to_nat skipn]. unfold staging.
    replace (Z.to_nat (total_len iov)
             - length (firstn (Z.to_nat (total_len iov)) bytes))%nat
      with O by lia.
    cbn [repeat]. rewrite app_nil_r. reflexivity.
  - unfold staging. rewrite length_app, repeat_length. lia.
Qed.

Lemma kos_readv_bound vec w w' n :
  Forall (fun v => 0 <= iov_len v) vec ->
  total_len vec <= SIZE_MAX P / 2 ->
  kos_readv P vec (Z.of_nat (length vec)) w = Some (n, w') ->
  n = -1 \/ 0 <= n <= total_len vec.
Proof.
  intros Hlens Htotal Hrun.
  pose proof (total_len_nonneg vec Hlens) as Hnn.
  assert (Hmax : 0 <= total_len vec <= SIZE_MAX P)
    by (apply half_range; lia).
  unfold kos_readv in Hrun.
  destruct (0 >=? Z.of_nat (length vec));
    [injection Hrun as <- _; left; reflexivity |].
  rewrite (kos_total_sum P vec 0 Hlens) in Hrun by lia.
  cbn [Z.add] in Hrun.
  rewrite (to_size_small P (total_len vec)) in Hrun by lia.
  destruct (total_len vec >? SIZE_MAX P);
    [injection Hrun as <- _; left; reflexivity |].
  destruct (total_len vec =? 0); [injection Hrun as <- _; right; lia |].
  destruct (reads w) as [| [bytes | e] tr]; [discriminate | |];
    injection Hrun as <- _; [right | left; reflexivity].
  rewrite length_firstn. lia.
Qed.

Lemma readv_bound vec cnt w w' n :
  Forall (fun v => 0 <= iov_len v) vec ->
  readv vec cnt w = Some (n, w') ->
  n = -1 \/ 0 <= n <= total_len vec.
Proof.
  intros Hlens Hrun.
  pose proof (total_len_nonneg vec Hlens) as Hnn.
  unfold readv in Hrun.
  destruct (reads w) as [| [bytes | e] tr]; [discriminate | |];
    injection Hrun as <- _; [right | left; reflexivity].
  rewrite length_firstn. lia.
Qed.

(** X20. The vectored read, shim or readv, never reports more bytes than
    the regions hold: with valid lengths and a total within ssize_t the
    value returned is -1 or lies between 0 and the total. *)
Theorem vectored_read_is_bounded (vec : list iovec) (w w' : world) (n : Z)
        (Hlens : Forall (fun v => 0 <= iov_len v) vec)
        (Htotal : total_len vec <= SIZE_MAX P / 2)
        (Hrun : vectored_read P vec w = Some (n, w')) :
  n = -1 \/ 0 <= n <= total_len vec.
Proof.
  unfold vectored_read in Hrun.
  destruct (__KOS__ P).
  - exact (kos_readv_bound vec w w' n Hlens Htotal Hrun).
  - exact (readv_bound vec _ w w' n Hlens Hrun).
Qed.

(** X21. Under a positive limit within ssize_t, on a chain of valid
    buffers, the read that follows the loop never returns more than the
    limit: the value is at most the size requested, which is at most the
    limit. *)
Theorem read_never_exceeds_limit (chain : ngx_chain_t) (limit : Z)
        (st : co_state) (rest : ngx_chain_t) (w w' : world) (n : Z)
        (Hok : Forall buf_ok chain)
        (Hlimit : 0 < limit <= SIZE_MAX P / 2)
        (Hcap : 0 <= NGX_IOVS_PREALLOCATE P)
        (Hco : coalesce P chain limit = CoDone st rest)
        (Hrun : vectored_read P (co_vec st) w = Some (n, w')) :
  n <= co_size st /\ co_size st <= limit.
Proof.
  assert (Hmax : 0 <= limit <= SIZE_MAX P) by (apply half_range; lia).
  destruct (coalesce_loop_limited P chain limit (mkCo [] 0 NULL))
    as (st0 & rest0 & Hrun0 & (Hsize & Hsum & Hpos & _) & _);
    [lia | exact Hok | |].
  { unfold co_inv; cbn. split; [lia |]. split; [reflexivity |].
    split; [constructor |]. split; [lia | reflexivity]. }
  unfold coalesce in Hco. rewrite Hco in Hrun0.
  injection Hrun0 as <- <-.
  unfold vectored_read in Hrun.
  destruct (__KOS__ P).
  - destruct (kos_readv_bound (co_vec st) w w' n Hpos) as [-> | Hn];
      [lia | exact Hrun | lia | lia].
  - destruct (readv_bound (co_vec st) _ w w' n Hpos Hrun) as [-> | Hn]; lia.
Qed.

End MoreShim.

(** ** The further properties at concrete inputs *)

Lemma call_only_degrades_flags_witness :
  exists r,
    ngx_readv_chain (unix_platform false false true true) (mkGlobals 0 false)
      (fresh_conn 5 false 0) [mkBuf 1000 1100] 0
      (script [ReadOk (repeat 7 10)]) = Ret r
    /\ flags_only_degrade (fresh_conn 5 false 0) (conn r)
    /\ ready (read (conn r)) = false.
Proof.
  eexists. split; [vm_compute; reflexivity |]. split; [| reflexivity].
  apply (call_only_degrades_flags (unix_platform false false true true)
           (mkGlobals 0 false) (fresh_conn 5 false 0) [mkBuf 1000 1100] 0
           (script [ReadOk (repeat 7 10)])).
  vm_compute. reflexivity.
Defined.

Lemma zero_read_is_eof_witness :
  exists r,
    ngx_readv_chain (unix_platform true false false false) (mkGlobals 8 false)
      (fresh_conn 12 false 0) [mkBuf 1000 1100] 0 (script [ReadOk []])
    = Ret r
    /\ ret r = 0 /\ eof (read (conn r)) = true
    /\ available (read (conn r)) = 0.
Proof.
  edestruct (zero_read_is_eof (unix_platform true false false false)
               (mkGlobals 8 false) (fresh_conn 12 false 0)
               [mkBuf 1000 1100] 0 (script [ReadOk []]))
    as (r & Hr & Hret & Heof & _ & Hav & _);
    [reflexivity | reflexivity | reflexivity |].
  exists r. auto.
Defined.

Lemma kqueue_readiness_after_read_witness :
  exists r,
    ngx_readv_chain (unix_platform true false false false) (mkGlobals 8 false)
      (fresh_conn 5 true 0) [mkBuf 1000 1100] 0
      (script [ReadOk (repeat 7 10)]) = Ret r
    /\ ret r = 10 /\ available (read (conn r)) = 0
    /\ ready (read (conn r)) = true.
Proof.
  edestruct (kqueue_readiness_after_read
               (unix_platform true false false false) (mkGlobals 8 false)
               (fresh_conn 5 true 0) [mkBuf 1000 1100] 0
               (script [ReadOk (repeat 7 10)]))
    as (r & Hr & Hret & Hav & Hready & _);
    [reflexivity | reflexivity | reflexivity | reflexivity | reflexivity |].
  exists r. auto.
Defined.

Lemma epoll_short_read_witness :
  exists r,
    ngx_readv_chain (unix_platform false true false false) (mkGlobals 64 true)
      (fresh_conn 1 false 0) [mkBuf 1000 1100] 0
      (script [ReadOk (repeat 7 10)]) = Ret r
    /\ ret r = 10 /\ available (read (conn r)) = 0
    /\ ready (read (conn r)) = false.
Proof.
  edestruct (epoll_short_read (unix_platform false true false false)
               (mkGlobals 64 true) (fresh_conn 1 false 0)
               [mkBuf 1000 1100] 0 (script [ReadOk (repeat 7 10)]))
    as (r & Hr & Hret & Hshort & _);
    [reflexivity | reflexivity | reflexivity | reflexivity | reflexivity
     | reflexivity | right; left; reflexivity |].
  destruct (Hshort ltac:(by_eval)) as (Hav & Hready & _).
  exists r. split; [exact Hr |]. split; [exact Hret |].
  split; [exact Hav | apply Hready; reflexivity].
Defined.

Lemma generic_short_read_witness :
  exists w1,
    ngx_readv_chain (unix_platform false false false false)
      (mkGlobals 32 false) (fresh_conn (-1) false 0) [mkBuf 1000 1100] 0
      (script [ReadOk (repeat 7 10)])
    = Ret (mkResult 10 (fresh_conn (-1) false 0) [mkBuf 1000 1100] w1).
Proof.
  eexists.
  apply (generic_short_read (unix_platform false false false false)
           (mkGlobals 32 false) (fresh_conn (-1) false 0)
           [mkBuf 1000 1100] 0 (script [ReadOk (repeat 7 10)])
           (mkCo [mkIov 1000 100] 100 1100) [] 10 _
           eq_refl eq_refl eq_refl eq_refl eq_refl eq_refl eq_refl).
Defined.

Lemma fionread_query_refreshes_hint_witness :
  exists w2,
    ngx_readv_chain (unix_platform false false true false) (mkGlobals 0 false)
      (fresh_conn (-1) false 0) [mkBuf 1000 1010] 0
      (mkWorld zero_memory 0 [ReadOk (repeat 7 10)] [NreadOk 25])
    = Ret (mkResult 10 (fresh_conn 25 false 0) [mkBuf 1000 1010] w2).
Proof.
  eexists.
  apply (proj1 (fionread_query_refreshes_hint
                  (unix_platform false false true false)
                  (mkGlobals 0 false) (fresh_conn (-1) false 0)
                  [mkBuf 1000 1010] 0
                  (mkWorld zero_memory 0 [ReadOk (repeat 7 10)] [NreadOk 25])
                  (mkCo [mkIov 1000 10] 10 1010) [] 10 _
                  eq_refl eq_refl eq_refl eq_refl eq_refl eq_refl eq_refl
                  eq_refl)
               25 [] eq_refl).
Defined.

Lemma query_only_when_needed_witness :
  exists r,
    ngx_readv_chain (unix_platform false false true false) (mkGlobals 0 false)
      (fresh_conn (-1) false 0) [mkBuf 1000 1100] 0
      (mkWorld zero_memory 0 [ReadOk (repeat 7 10)] [NreadOk 25]) = Ret r
    /\ ret r = 10
    /\ nreads (world_after r) = [NreadOk 25].
Proof.
  edestruct (query_only_when_needed (unix_platform false false true false)
               (mkGlobals 0 false) (fresh_conn (-1) false 0)
               [mkBuf 1000 1100] 0
               (mkWorld zero_memory 0 [ReadOk (repeat 7 10)] [NreadOk 25]))
    as (r & Hr & Hret & Hw);
    [reflexivity | reflexivity | reflexivity | reflexivity
     | right; left; by_eval |].
  exists r. split; [exact Hr |]. split; [exact Hret |].
  rewrite Hw. reflexivity.
Defined.

Lemma interrupted_reads_are_retried_witness :
  ngx_readv_chain (unix_platform false false false true) (mkGlobals 0 false)
    (fresh_conn (-1) false 0) [mkBuf 1000 1100] 0
    (script [ReadErr 4; ReadErr 4; ReadErr 4; ReadOk (repeat 7 10)])
  = ngx_readv_chain (unix_platform false false false true)
      (mkGlobals 0 false) (fresh_conn (-1) false 0) [mkBuf 1000 1100] 0
      (mkWorld zero_memory 4 [ReadOk (repeat 7 10)] []).
Proof.
  exact (interrupted_reads_are_retried (unix_platform false false false true)
           (mkGlobals 0 false) (fresh_conn (-1) false 0)
           [mkBuf 1000 1100] 0 (mkCo [mkIov 1000 100] 100 1100) []
           2 [ReadOk (repeat 7 10)]
           (script [ReadErr 4; ReadErr 4; ReadErr 4; ReadOk (repeat 7 10)])
           eq_refl eq_refl eq_refl eq_refl).
Defined.

Lemma no_entry_is_rejected_by_shim_witness :
  exists r,
    ngx_readv_chain (unix_platform false false false true) (mkGlobals 0 false)
      (fresh_conn (-1) false 0) [] 0 (script [ReadOk [7]]) = Ret r
    /\ ret r = -1
    /\ ready (read (conn r)) = false
    /\ reads (world_after r) = [ReadOk [7]].
Proof.
  edestruct (no_entry_is_rejected_by_shim
               (unix_platform false false false true) (mkGlobals 0 false)
               (fresh_conn (-1) false 0) [] 0 (script [ReadOk [7]]))
    as (r & Hr & Hret & Hready & Hw);
    [reflexivity | reflexivity | left; reflexivity | by_eval | by_eval |].
  exists r. split; [exact Hr |]. split; [exact Hret |].
  split; [exact Hready |]. rewrite Hw. reflexivity.
Defined.

Lemma coalesce_stays_within_array_witness :
  coalesce (unix_platform false false false true)
           [mkBuf 100 110; mkBuf 200 210; mkBuf 300 310] 0 <> CoError.
Proof.
  apply (coalesce_stays_within_array (unix_platform false false false true)
           [mkBuf 100 110; mkBuf 200 210; mkBuf 300 310] 0).
  by_eval.
Defined.

Lemma unlimited_gathers_whole_chain_witness :
  exists st,
    coalesce (unix_platform false false false true)
             [mkBuf 100 150; mkBuf 150 200; mkBuf 300 310] 0 = CoDone st []
    /\ co_size st = 110.
Proof.
  destruct (unlimited_gathers_whole_chain
              (unix_platform false false false true)
              [mkBuf 100 150; mkBuf 150 200; mkBuf 300 310])
    as (st & Hrun & Hsize & _).
  - repeat constructor; cbn; first [discriminate | by_eval].
  - by_eval.
  - by_eval.
  - exists st. split; [exact Hrun | exact Hsize].
Defined.

Lemma entry_count_is_run_count_witness :
  exists st,
    coalesce (unix_platform false false false true)
             [mkBuf 100 150; mkBuf 150 200; mkBuf 300 310] 0 = CoDone st []
    /\ length (co_vec st) = 2%nat.
Proof.
  destruct (entry_count_is_run_count
              (unix_platform false false false true)
              [mkBuf 100 150; mkBuf 150 200; mkBuf 300 310])
    as (st & Hrun & Hcount).
  - repeat constructor; cbn; first [discriminate | by_eval].
  - by_eval.
  - by_eval.
  - exists st. split; [exact Hrun | exact Hcount].
Defined.

Lemma kos_readv_writes_only_regions_witness :
  exists n w',
    kos_readv (unix_platform false false false true) [mkIov 1000 4] 1
              (mkWorld (fun _ => 9) 0 [ReadOk [7; 7]] []) = Some (n, w')
    /\ mem w' 2000 = 9.
Proof.
  do 2 eexists. split; [reflexivity |].
  refine (proj1 (kos_readv_writes_only_regions
                   (unix_platform false false false true) [mkIov 1000 4] 1
                   (mkWorld (fun _ => 9) 0 [ReadOk [7; 7]] []) _ _ eq_refl)
                2000 _).
  outside.
Defined.

Lemma regions_lie_in_free_space_witness :
  in_free [mkBuf 1000 1100; mkBuf 1100 1200] 1150.
Proof.
  apply (regions_lie_in_free_space (unix_platform false false false true)
           [mkBuf 1000 1100; mkBuf 1100 1200] 0
           (mkCo [mkIov 1000 200] 200 1200) []).
  - repeat constructor; cbn; first [discriminate | by_eval].
  - by_eval.
  - by_eval.
  - reflexivity.
  - left. cbn. lia.
Defined.

Lemma call_writes_only_free_space_witness :
  exists r,
    ngx_readv_chain (unix_platform false false false true) (mkGlobals 0 false)
      (fresh_conn (-1) false 0) [mkBuf 1000 1100] 0
      (mkWorld (fun _ => 9) 0 [ReadOk (repeat 7 10)] []) = Ret r
    /\ mem (world_after r) 1100 = 9.
Proof.
  eexists. split; [vm_compute; reflexivity |].
  apply (call_writes_only_free_space (unix_platform false false false true)
           (mkGlobals 0 false) (fresh_conn (-1) false 0) [mkBuf 1000 1100] 0
           (mkWorld (fun _ => 9) 0 [ReadOk (repeat 7 10)] [])).
  - repeat constructor; cbn; first [discriminate | by_eval].
  - by_eval.
  - by_eval.
  - vm_compute. reflexivity.
  - outside.
Defined.

Lemma kos_readv_delivers_in_order_witness :
  exists n wk,
    kos_readv (unix_platform false false false true)
              [mkIov 1000 2; mkIov 2000 4] 2
              (mkWorld (fun _ => 9) 0 [ReadOk [5; 6; 7]] []) = Some (n, wk)
    /\ mem wk 2000 = 7.
Proof.
  destruct (kos_readv_delivers_in_order
              (unix_platform false false false true)
              [mkIov 1000 2] (mkIov 2000 4) []
              (mkWorld (fun _ => 9) 0 [ReadOk [5; 6; 7]] []) [5; 6; 7] [] 0)
    as (n & wk & Hrun & _ & Hmem).
  - repeat constructor; by_eval.
  - by_eval.
  - reflexivity.
  - by_eval.
  - by_eval.
  - outside.
  - exists n, wk. split; [exact Hrun | exact Hmem].
Defined.

Lemma kos_readv_eof_zero_fills_witness :
  exists wk,
    kos_readv (unix_platform false false false true) [mkIov 1000 4] 1
              (mkWorld (fun _ => 9) 0 [ReadOk []] []) = Some (0, wk)
    /\ mem wk 1003 = 0.
Proof.
  apply (kos_readv_eof_zero_fills (unix_platform false false false true)
           [mkIov 1000 4] (mkWorld (fun _ => 9) 0 [ReadOk []] []) [] 1003).
  - repeat constructor. by_eval.
  - by_eval.
  - reflexivity.
  - left. cbn. lia.
Defined.

Lemma kos_readv_full_read_is_readv_witness :
  exists wk wr,
    kos_readv (unix_platform false false false true)
              [mkIov 1000 2; mkIov 2000 1] 2
              (mkWorld (fun _ => 9) 0 [ReadOk [5; 6; 7; 8]] []) = Some (3, wk)
    /\ readv [mkIov 1000 2; mkIov 2000 1] 2
             (mkWorld (fun _ => 9) 0 [ReadOk [5; 6; 7; 8]] []) = Some (3, wr)
    /\ mem wk 2000 = mem wr 2000.
Proof.
  destruct (kos_readv_full_read_is_readv
              (unix_platform false false false true)
              [mkIov 1000 2; mkIov 2000 1]
              (mkWorld (fun _ => 9) 0 [ReadOk [5; 6; 7; 8]] [])
              [5; 6; 7; 8] [])
    as (wk & wr & Hk & Hr & Hmem & _).
  - repeat constructor; by_eval.
  - by_eval.
  - reflexivity.
  - by_eval.
  - exists wk, wr. split; [exact Hk |]. split; [exact Hr | apply Hmem].
Defined.

Lemma vectored_read_is_bounded_witness :
  exists n w',
    vectored_read (unix_platform false false false true) [mkIov 1000 4]
                  (mkWorld (fun _ => 9) 0 [ReadOk [5; 6; 7; 8; 9; 10]] [])
    = Some (n, w')
    /\ (n = -1 \/ 0 <= n <= 4).
Proof.
  do 2 eexists. split; [reflexivity |].
  refine (vectored_read_is_bounded (unix_platform false false false true)
            [mkIov 1000 4]
            (mkWorld (fun _ => 9) 0 [ReadOk [5; 6; 7; 8; 9; 10]] [])
            _ _ _ _ eq_refl).
  - repeat constructor. by_eval.
  - by_eval.
Defined.

Lemma read_never_exceeds_limit_witness :
  exists st rest n w',
    coalesce (unix_platform false false false true)
             [mkBuf 1000 1100] 30 = CoDone st rest
    /\ vectored_read (unix_platform false false false true) (co_vec st)
                     (script [ReadOk (repeat 7 50)]) = Some (n, w')
    /\ n <= 30.
Proof.
  do 4 eexists. split; [vm_compute; reflexivity |].
  split; [vm_compute; reflexivity |].
  edestruct (read_never_exceeds_limit (unix_platform false false false true)
               [mkBuf 1000 1100] 30 (mkCo [mkIov 1000 30] 30 1100) []
               (script [ReadOk (repeat 7 50)]))
    as [Hn Hs];
    [| | | vm_compute; reflexivity | vm_compute; reflexivity |].
  - repeat constructor; cbn; first [discriminate | by_eval].
  - by_eval.
  - by_eval.
  - exact (Z.le_trans _ _ _ Hn Hs).
Defined.

(** ** What the loop leaves over *)

Section Leftover.

Variable P : platform.

(** X22. What the loop leaves unconsumed is a tail of the chain, and it
    leaves something only when the limit is reached or the array is full. *)
Theorem leftover_only_at_limit_or_capacity (chain : ngx_chain_t) (limit : Z)
        (st : co_state) (rest : ngx_chain_t)
        (Hco : coalesce P chain limit = CoDone st rest) :
  (exists taken, chain = taken ++ rest)
  /\ (rest = []
      \/ (limit <> 0 /\ limit <= co_size st)
      \/ Z.of_nat (length (co_vec st)) = NGX_IOVS_PREALLOCATE P).
Proof.
  unfold coalesce in Hco. revert Hco. generalize (mkCo [] 0 NULL).
  induction chain as [| cl next IH]; intros s0; cbn [coalesce_loop].
  - intros [= <- <-]. split; [exists []; reflexivity | left; reflexivity].
  - destruct (negb (limit =? 0) && (co_size s0 >=? limit)) eqn:Hfull.
    + intros [= <- <-]. split; [exists []; reflexivity |]. right. left. lia.
    + match goal with
      | |- context [bump_last P ?n (co_vec s0)] => set (k := n)
      end.
      assert (Hcons : forall s,
                 coalesce_loop P next limit s = CoDone st rest ->
                 (exists taken, cl :: next = taken ++ rest)
                 /\ (rest = []
                     \/ (limit <> 0 /\ limit <= co_size st)
                     \/ Z.of_nat (length (co_vec st))
                        = NGX_IOVS_PREALLOCATE P)).
      { intros s Hs. destruct (IH s Hs) as [(taken & ->) Hwhy].
        split; [exists (cl :: taken); reflexivity | exact Hwhy]. }
      destruct (co_prev s0 =? buf_last cl).
      * destruct (bump_last P k (co_vec s0)); [apply Hcons | discriminate].
      * destruct (Z.of_nat (length (co_vec s0)) =? NGX_IOVS_PREALLOCATE P)
          eqn:Hcap.
        -- intros [= <- <-]. split; [exists []; reflexivity |].
           right. right. lia.
        -- destruct (ngx_array_push (co_vec s0) (NGX_IOVS_PREALLOCATE P) _);
             [apply Hcons | discriminate].
Qed.

End Leftover.

Lemma leftover_only_at_limit_or_capacity_witness :
  exists taken,
    [mkBuf 100 110; mkBuf 200 210; mkBuf 300 310]
    = taken ++ [mkBuf 300 310].
Proof.
  exact (proj1 (leftover_only_at_limit_or_capacity
                  (mkPlatform false false false true 2 (2 ^ 64 - 1) 8 64 32
                              (-1) (-2) 11 4 22 (fun _ _ => -1))
                  [mkBuf 100 110; mkBuf 200 210; mkBuf 300 310] 0
                  (mkCo [mkIov 100 10; mkIov 200 10] 20 210)
                  [mkBuf 300 310] eq_refl)).
Defined.
